(** * Snake game engine of slither-synth: the state update of [SnakeGame]

    The React component [SnakeGame] (src/src/App.tsx) keeps five pieces of
    state ([snake], [direction], [food], [score], [gameOver]) and changes them
    through three callbacks: [initGame], [moveSnake] (driven by a 200 ms
    timer) and [handleKeyDown].  This file embeds those callbacks, together
    with their helpers [spawnFood] and [checkCollision], and proves the
    properties the specification states about them.

    Modelling conventions.
    - Grid coordinates and the score are JavaScript numbers that only ever
      hold integers (they start as integer literals, move by [+1]/[-1], or
      come out of [Math.floor]); they are integers [Z] here.
    - The props [width], [height] and [gridSize] are arbitrary numbers, and
      the grid bounds [width / gridSize] and [height / gridSize] are NOT
      rounded by the code, so they are rationals [Q], and the product
      [Math.random() * bound] is the exact one.  Rocq's [Qdiv] agrees with
      JavaScript's [/] for a non-zero divisor (for [gridSize = 0] JavaScript
      gives [Infinity] or [NaN], which this model does not represent); the
      statements about where random cells fall assume positive props
      ([props_ok]).
    - [Math.random()] is an oracle: the successive results of the calls are
      given as a list of rationals, consumed from the front.  A rejection
      loop that needs more draws than the list holds yields [None].
    - A callback closes over the state of the render in which it was created
      and queues updates through the setters; the queued updates are applied
      to the pending state.  [M] is the monad of those queued updates. *)

From Stdlib Require Import ZArith QArith Qround List String Bool Lia Lqa.
Import ListNotations.
Local Open Scope Z_scope.

(** ** Data model *)

Record Coordinate : Set := mkCoordinate { x : Z; y : Z }.

(** Possible directions for the snake. *)
Inductive Direction : Set := UP | DOWN | LEFT | RIGHT.

(** The full game state. *)
Record GameState : Type := mkGameState {
  snake : list Coordinate;
  food : Coordinate;
  direction : Direction;
  score : Z;
  gameOver : bool
}.

Record SnakeGameProps : Type := mkProps {
  width : Q;
  height : Q;
  gridSize : Q
}.

(** The defaults of the component, which are also what [App] passes. *)
Definition defaultProps : SnakeGameProps :=
  {| width := 400; height := 400; gridSize := 20 |}.

(** [width / gridSize] and [height / gridSize], as the code writes them. *)
Definition columns (p : SnakeGameProps) : Q := (width p / gridSize p)%Q.
Definition rows (p : SnakeGameProps) : Q := (height p / gridSize p)%Q.

Definition props_ok (p : SnakeGameProps) : Prop :=
  (0 < width p)%Q /\ (0 < height p)%Q /\ (0 < gridSize p)%Q.

(** The arguments of the five [useState] calls. *)
Definition initialState : GameState :=
  {| snake := [mkCoordinate 8 10; mkCoordinate 7 10; mkCoordinate 6 10];
     food := mkCoordinate 13 10;
     direction := RIGHT;
     score := 0;
     gameOver := false |}.

(** [a.x === b.x && a.y === b.y], the comparison of two cells used by
    [moveSnake], [spawnFood] and [checkCollision]. *)
Definition sameCell (a b : Coordinate) : bool :=
  (x a =? x b) && (y a =? y b).

(** ** Queued state updates and the random oracle *)

Record World : Type := mkWorld {
  pending : GameState;
  randoms : list Q
}.

Definition M (A : Type) : Type := World -> option (A * World).

Definition ret {A : Type} (a : A) : M A := fun w => Some (a, w).

Definition bind {A B : Type} (m : M A) (k : A -> M B) : M B :=
  fun w => match m w with
           | Some (a, w') => k a w'
           | None => None
           end.

Declare Scope update_scope.
Delimit Scope update_scope with update.
Notation "v <- m ;; k" := (bind m (fun v => k))
  (at level 61, m at next level, right associativity) : update_scope.
Notation "m ;; k" := (bind m (fun _ => k))
  (at level 61, right associativity) : update_scope.
Local Open Scope update_scope.

Definition modify (f : GameState -> GameState) : M unit :=
  fun w => Some (tt, {| pending := f (pending w); randoms := randoms w |}).

Definition setSnake (v : list Coordinate) : M unit :=
  modify (fun s => {| snake := v; food := food s; direction := direction s;
                      score := score s; gameOver := gameOver s |}).

Definition setDirection (v : Direction) : M unit :=
  modify (fun s => {| snake := snake s; food := food s; direction := v;
                      score := score s; gameOver := gameOver s |}).

Definition setFood (v : Coordinate) : M unit :=
  modify (fun s => {| snake := snake s; food := v; direction := direction s;
                      score := score s; gameOver := gameOver s |}).

(** [setScore] takes an updater, as in [setScore((prev) => prev + 1)];
    [setScore(0)] is the constant updater. *)
Definition setScore (f : Z -> Z) : M unit :=
  modify (fun s => {| snake := snake s; food := food s; direction := direction s;
                      score := f (score s); gameOver := gameOver s |}).

Definition setGameOver (v : bool) : M unit :=
  modify (fun s => {| snake := snake s; food := food s; direction := direction s;
                      score := score s; gameOver := v |}).

(** Runs a callback created in the render of state [s], with [rs] the
    results of the coming [Math.random()] calls, and commits its updates. *)
Definition commit {A : Type} (m : M A) (rs : list Q) (s : GameState)
  : option (GameState * list Q) :=
  match m {| pending := s; randoms := rs |} with
  | Some (_, w) => Some (pending w, randoms w)
  | None => None
  end.

(** ** The callbacks *)

(** Initialize or reset the game state. *)
Definition initGame : M unit :=
  setSnake [mkCoordinate 8 10; mkCoordinate 7 10; mkCoordinate 6 10] ;;
  setDirection RIGHT ;;
  setFood (mkCoordinate 13 10) ;;
  setScore (fun _ => 0) ;;
  setGameOver false.

(** The [switch (direction)] of [moveSnake], applied to a copy of the head. *)
Definition advance (d : Direction) (head : Coordinate) : Coordinate :=
  match d with
  | UP => {| x := x head; y := y head - 1 |}
  | DOWN => {| x := x head; y := y head + 1 |}
  | LEFT => {| x := x head - 1; y := y head |}
  | RIGHT => {| x := x head + 1; y := y head |}
  end.

(** [Math.floor(Math.random() * bound)] for a drawn value [r]. *)
Definition randomCell (r bound : Q) : Z := Qfloor (r * bound).

(** The [while (true)] loop of [spawnFood]: two draws per candidate, [x]
    first; the first candidate that is on no segment is returned together
    with the draws that remain. *)
Fixpoint spawnFood_loop (p : SnakeGameProps) (snakePositions : list Coordinate)
  (rs : list Q) : option (Coordinate * list Q) :=
  match rs with
  | rx :: ry :: rs' =>
      let newFood := {| x := randomCell rx (columns p);
                        y := randomCell ry (rows p) |} in
      if negb (existsb (fun segment => sameCell segment newFood) snakePositions)
      then Some (newFood, rs')
      else spawnFood_loop p snakePositions rs'
  | _ => None
  end.

(** Randomly place food that isn't on top of the snake. *)
Definition spawnFood (p : SnakeGameProps) (snakePositions : list Coordinate)
  : M unit :=
  fun w =>
    match spawnFood_loop p snakePositions (randoms w) with
    | Some (newFood, rs') =>
        setFood newFood {| pending := pending w; randoms := rs' |}
    | None => None
    end.

(** The wall test of [checkCollision]. *)
Definition hitsWall (p : SnakeGameProps) (head : Coordinate) : bool :=
  (x head <? 0) || Qle_bool (columns p) (inject_Z (x head))
  || (y head <? 0) || Qle_bool (rows p) (inject_Z (y head)).

(** Check for collisions with walls or self.  The loop starts at index 1,
    ignoring the newly inserted head at index 0. *)
Definition checkCollision (p : SnakeGameProps) (head : Coordinate)
  (snakePositions : list Coordinate) : bool :=
  if hitsWall p head then true
  else existsb (fun segment => sameCell segment head) (tl snakePositions).

(** Move the snake in the current direction by one grid cell.  [s] is the
    state the callback closes over.

    With an empty [snake] (no render ever has one) [head] is [undefined], the
    fields of [newHead] are [undefined] or [NaN], every comparison on them is
    false, the pushed head is popped again and [setSnake([])] is the only
    update. *)
Definition moveSnake (p : SnakeGameProps) (s : GameState) : M unit :=
  if gameOver s then ret tt
  else
    match snake s with
    | [] => setSnake []
    | head :: _ =>
        let newHead := advance (direction s) head in
        let unshifted := newHead :: snake s in
        newSnake <-
          (if sameCell newHead (food s)
           then setScore (fun prev => prev + 1) ;;
                spawnFood p unshifted ;;
                ret unshifted
           else ret (removelast unshifted)) ;;
        (if checkCollision p newHead newSnake
         then setGameOver true
         else ret tt) ;;
        setSnake newSnake
    end.

(** Keyboard controls for the snake; [key] is [e.key]. *)
Definition handleKeyDown (key : string) (s : GameState) : M unit :=
  if gameOver s then
    (if String.eqb key "Enter" then initGame else ret tt)
  else if String.eqb key "ArrowUp" then
    (match direction s with DOWN => ret tt | _ => setDirection UP end)
  else if String.eqb key "ArrowDown" then
    (match direction s with UP => ret tt | _ => setDirection DOWN end)
  else if String.eqb key "ArrowLeft" then
    (match direction s with RIGHT => ret tt | _ => setDirection LEFT end)
  else if String.eqb key "ArrowRight" then
    (match direction s with LEFT => ret tt | _ => setDirection RIGHT end)
  else ret tt.

(** ** The engine operations of the specification *)

(** [tick()]: one firing of the timer. *)
Definition tick (p : SnakeGameProps) (rs : list Q) (s : GameState)
  : option (GameState * list Q) :=
  commit (moveSnake p s) rs s.

(** [init()]. *)
Definition init (s : GameState) : GameState :=
  match commit initGame [] s with
  | Some (s', _) => s'
  | None => s
  end.

Definition arrowKey (d : Direction) : string :=
  match d with
  | UP => "ArrowUp"
  | DOWN => "ArrowDown"
  | LEFT => "ArrowLeft"
  | RIGHT => "ArrowRight"
  end.

Definition opposite (d : Direction) : Direction :=
  match d with
  | UP => DOWN
  | DOWN => UP
  | LEFT => RIGHT
  | RIGHT => LEFT
  end.

(** [setDirection(d)]: the key press that requests direction [d]. *)
Definition requestDirection (d : Direction) (s : GameState) : GameState :=
  match commit (handleKeyDown (arrowKey d) s) [] s with
  | Some (s', _) => s'
  | None => s
  end.

(** [n] successive ticks. *)
Fixpoint ticks (p : SnakeGameProps) (n : nat) (rs : list Q) (s : GameState)
  : option (GameState * list Q) :=
  match n with
  | O => Some (s, rs)
  | S n' =>
      match tick p rs s with
      | Some (s', rs') => ticks p n' rs' s'
      | None => None
      end
  end.

(** What the timer and the keyboard deliver. *)
Inductive Event : Type :=
| Tick
| KeyDown (key : string).

Definition dispatch (p : SnakeGameProps) (e : Event) (s : GameState) : M unit :=
  match e with
  | Tick => moveSnake p s
  | KeyDown key => handleKeyDown key s
  end.

Fixpoint run (p : SnakeGameProps) (es : list Event) (rs : list Q)
  (s : GameState) : option (GameState * list Q) :=
  match es with
  | [] => Some (s, rs)
  | e :: es' =>
      match commit (dispatch p e s) rs s with
      | Some (s', rs') => run p es' rs' s'
      | None => None
      end
  end.

(** A cell of the grid: [0 <= x < columns] and [0 <= y < rows]. *)
Definition inGrid (p : SnakeGameProps) (c : Coordinate) : Prop :=
  0 <= x c /\ (inject_Z (x c) < columns p)%Q /\
  0 <= y c /\ (inject_Z (y c) < rows p)%Q.

(** A head position that the wall test rejects. *)
Definition offGrid (p : SnakeGameProps) (c : Coordinate) : Prop :=
  x c < 0 \/ (columns p <= inject_Z (x c))%Q \/
  y c < 0 \/ (rows p <= inject_Z (y c))%Q.

(** A result of [Math.random()]. *)
Definition unitInterval (r : Q) : Prop := (0 <= r)%Q /\ (r < 1)%Q.

(** The candidates that a list of draws stands for, two draws each. *)
Fixpoint candidates (p : SnakeGameProps) (rs : list Q) : list Coordinate :=
  match rs with
  | rx :: ry :: rs' =>
      {| x := randomCell rx (columns p); y := randomCell ry (rows p) |}
      :: candidates p rs'
  | _ => []
  end.



(** ** Concrete states used below *)

(** The head in the rightmost column of the 20-wide grid, moving right. *)
Definition wallState : GameState :=
  {| snake := [mkCoordinate 19 10; mkCoordinate 18 10; mkCoordinate 17 10];
     food := mkCoordinate 13 10;
     direction := RIGHT;
     score := 0;
     gameOver := false |}.

(** A snake of four segments coiled on a 2x2 block, about to step on the
    cell its tail is leaving. *)
Definition coilState : GameState :=
  {| snake := [mkCoordinate 5 5; mkCoordinate 5 6; mkCoordinate 6 6; mkCoordinate 6 5];
     food := mkCoordinate 13 10;
     direction := RIGHT;
     score := 1;
     gameOver := false |}.

(** A snake of five segments about to step on its fourth segment. *)
Definition knotState : GameState :=
  {| snake := [mkCoordinate 5 5; mkCoordinate 5 6; mkCoordinate 6 6;
               mkCoordinate 6 5; mkCoordinate 7 5];
     food := mkCoordinate 13 10;
     direction := RIGHT;
     score := 2;
     gameOver := false |}.

(** The head one cell left of the food. *)
Definition feedState : GameState :=
  {| snake := [mkCoordinate 12 10; mkCoordinate 11 10; mkCoordinate 10 10];
     food := mkCoordinate 13 10;
     direction := RIGHT;
     score := 0;
     gameOver := false |}.

(** A grid of 13 columns: the fixed starting food [(13,10)] is outside it. *)
Definition narrowProps : SnakeGameProps :=
  {| width := 260; height := 400; gridSize := 20 |}.

(** ** Rendering *)

(** The calls [draw] and [drawGrid] make on the 2d context of the canvas,
    in the order they are made. *)
Inductive CanvasOp : Type :=
| ClearRect (left top w h : Q)
| FillStyle (colour : string)
| FillRect (left top w h : Q)
| Font (font : string)
| FillText (text : string) (left top : Q)
| StrokeStyle (colour : string)
| BeginPath
| MoveTo (left top : Q)
| LineTo (left top : Q)
| Stroke.

(** The square [fillRect] paints for a grid cell.  The products are the
    exact ones; the code's are doubles, which equal them when [gridSize] and
    the product are whole numbers below 2^53 (see [wholeProps]) and may
    differ by a rounding otherwise. *)
Definition cellRect (p : SnakeGameProps) (c : Coordinate) : CanvasOp :=
  FillRect (inject_Z (x c) * gridSize p) (inject_Z (y c) * gridSize p)
           (gridSize p) (gridSize p).

(** Draw the game state onto the canvas: the calls made when the canvas has
    a 2d context (without one [draw] returns at once). *)
Definition draw (p : SnakeGameProps) (s : GameState) : list CanvasOp :=
  [ClearRect 0 0 (width p) (height p)]
  ++ [FillStyle "green"]
  ++ map (cellRect p) (snake s)
  ++ [FillStyle "red"; cellRect p (food s)]
  ++ (if gameOver s
      then [FillStyle "rgba(0,0,0,0.5)";
            FillRect 0 0 (width p) (height p);
            FillStyle "#fff";
            Font "24px Arial";
            FillText "Game Over" (width p / 2 - 50) (height p / 2)]
      else []).

(** One [for] loop of [drawGrid]: [for (let v = start; v < limit; v += step)],
    giving the values the body runs at.  The loop has no bound of its own,
    so the model runs it for at most [fuel] tests of the condition. *)
Fixpoint gridLoop (fuel : nat) (v limit step : Q) : option (list Q) :=
  match fuel with
  | O => None
  | S fuel' =>
      if Qle_bool limit v then Some []
      else match gridLoop fuel' (v + step) limit step with
           | Some vs => Some (v :: vs)
           | None => None
           end
  end.

(** Helper to draw a grid (optional debugging). *)
Definition drawGrid (p : SnakeGameProps) (fuel : nat) : option (list CanvasOp) :=
  match gridLoop fuel 0 (width p) (gridSize p) with
  | None => None
  | Some xs =>
      match gridLoop fuel 0 (height p) (gridSize p) with
      | None => None
      | Some ys =>
          Some ([StrokeStyle "rgba(0, 0, 0, 0.1)"]
                ++ flat_map (fun v => [BeginPath; MoveTo v 0; LineTo v (height p); Stroke]) xs
                ++ flat_map (fun v => [BeginPath; MoveTo 0 v; LineTo (width p) v; Stroke]) ys)
      end
  end.

(** ** Shapes of a snake *)

(** Two cells that share a side. *)
Definition adjacent (a b : Coordinate) : Prop :=
  Z.abs (x a - x b) + Z.abs (y a - y b) = 1.

(** Every segment shares a side with the next one. *)
Fixpoint chain (l : list Coordinate) : Prop :=
  match l with
  | a :: (b :: _) as l' => adjacent a b /\ chain l'
  | _ => True
  end.

(** ** A sample game *)

(** Five ticks to the right onto the starting food, a turn up, one more
    tick; the first respawn candidate [(10,10)] is on the snake, the second
    [(5,15)] is free. *)
Definition sampleEvents : list Event :=
  [Tick; Tick; Tick; Tick; Tick; KeyDown "ArrowUp"; Tick].

Definition sampleDraws : list Q := [(1 # 2)%Q; (1 # 2)%Q; (1 # 4)%Q; (3 # 4)%Q].

Definition sampleState : GameState :=
  {| snake := [mkCoordinate 13 9; mkCoordinate 13 10;
               mkCoordinate 12 10; mkCoordinate 11 10];
     food := mkCoordinate 5 15;
     direction := UP;
     score := 1;
     gameOver := false |}.

(** Two key presses before the first tick: up, then left. *)
Definition turnedState : GameState :=
  {| snake := [mkCoordinate 8 10; mkCoordinate 7 10; mkCoordinate 6 10];
     food := mkCoordinate 13 10;
     direction := LEFT;
     score := 0;
     gameOver := false |}.

(** The state after [wallState] has run into the wall. *)
Definition crashedState : GameState :=
  {| snake := [mkCoordinate 20 10; mkCoordinate 19 10; mkCoordinate 18 10];
     food := mkCoordinate 13 10;
     direction := RIGHT;
     score := 0;
     gameOver := true |}.

(** A grid of two cells, [(0,0)] and [(1,0)]. *)
Definition tinyProps : SnakeGameProps :=
  {| width := 40; height := 20; gridSize := 20 |}.

(** On the two-cell grid: a snake of one segment about to eat the food on
    the only other cell. *)
Definition lastCellState : GameState :=
  {| snake := [mkCoordinate 0 0];
     food := mkCoordinate 1 0;
     direction := RIGHT;
     score := 0;
     gameOver := false |}.


(** Props that are whole numbers of pixels below 2^53, as the ones [App]
    passes.  For such props the doubles the code computes from them and from
    grid coordinates (the products [x * gridSize], and the comparison of a
    whole [x] with the rounded quotient [width / gridSize]) agree with the
    exact values used here. *)
Definition wholeProps (p : SnakeGameProps) : Prop :=
  exists W H G : Z,
    (width p == inject_Z W)%Q /\ (height p == inject_Z H)%Q /\
    (gridSize p == inject_Z G)%Q /\ W < 2 ^ 53 /\ H < 2 ^ 53.

(** ** Basic facts *)

Lemma sameCell_eq (a b : Coordinate) : sameCell a b = true <-> a = b.
Proof.
  unfold sameCell. rewrite andb_true_iff, !Z.eqb_eq.
  destruct a as [ax ay], b as [bx b_y]; cbn. split.
  - intros [-> ->]. reflexivity.
  - intros E. injection E as -> ->. split; reflexivity.
Qed.

Lemma sameCell_neq (a b : Coordinate) : sameCell a b = false <-> a <> b.
Proof.
  rewrite <- sameCell_eq. destruct (sameCell a b); split; congruence.
Qed.

Lemma onSnake_In (c : Coordinate) (l : list Coordinate) :
  existsb (fun segment => sameCell segment c) l = true <-> In c l.
Proof.
  rewrite existsb_exists. split.
  - intros [seg [Hin Heq]]. apply sameCell_eq in Heq. subst seg. exact Hin.
  - intros Hin. exists c. split; [exact Hin | apply sameCell_eq; reflexivity].
Qed.

Lemma offSnake_notIn (c : Coordinate) (l : list Coordinate) :
  existsb (fun segment => sameCell segment c) l = false <-> ~ In c l.
Proof.
  rewrite <- onSnake_In.
  destruct (existsb _ l); split; congruence.
Qed.

Lemma hitsWall_offGrid (p : SnakeGameProps) (c : Coordinate) :
  hitsWall p c = true <-> offGrid p c.
Proof.
  unfold hitsWall, offGrid.
  rewrite !orb_true_iff, !Z.ltb_lt, !Qle_bool_iff. tauto.
Qed.

Lemma offGrid_not_inGrid (p : SnakeGameProps) (c : Coordinate) :
  offGrid p c <-> ~ inGrid p c.
Proof.
  unfold offGrid, inGrid. split.
  - intros [H | [H | [H | H]]] [H1 [H2 [H3 H4]]];
      first [ lia | exact (Qlt_not_le _ _ H2 H) | exact (Qlt_not_le _ _ H4 H) ].
  - intros H.
    destruct (Z_lt_le_dec (x c) 0) as [Hx | Hx]; [left; exact Hx |].
    destruct (Qlt_le_dec (inject_Z (x c)) (columns p)) as [Hc | Hc];
      [| right; left; exact Hc].
    destruct (Z_lt_le_dec (y c) 0) as [Hy | Hy]; [right; right; left; exact Hy |].
    destruct (Qlt_le_dec (inject_Z (y c)) (rows p)) as [Hr | Hr];
      [| right; right; right; exact Hr].
    exfalso. apply H. repeat split; assumption.
Qed.

Lemma hitsWall_inGrid (p : SnakeGameProps) (c : Coordinate) :
  hitsWall p c = false <-> inGrid p c.
Proof.
  split.
  - intros H.
    destruct (Z_lt_le_dec (x c) 0) as [Hx | Hx].
    { assert (hitsWall p c = true) by (apply hitsWall_offGrid; left; exact Hx). congruence. }
    destruct (Qlt_le_dec (inject_Z (x c)) (columns p)) as [Hc | Hc].
    2:{ assert (hitsWall p c = true) by (apply hitsWall_offGrid; right; left; exact Hc). congruence. }
    destruct (Z_lt_le_dec (y c) 0) as [Hy | Hy].
    { assert (hitsWall p c = true) by (apply hitsWall_offGrid; right; right; left; exact Hy). congruence. }
    destruct (Qlt_le_dec (inject_Z (y c)) (rows p)) as [Hr | Hr].
    2:{ assert (hitsWall p c = true) by (apply hitsWall_offGrid; right; right; right; exact Hr). congruence. }
    repeat split; assumption.
  - intros H. destruct (hitsWall p c) eqn:E; [| reflexivity].
    apply hitsWall_offGrid, offGrid_not_inGrid in E. contradiction.
Qed.

Lemma checkCollision_spec (p : SnakeGameProps) (head : Coordinate)
  (l : list Coordinate) :
  checkCollision p head l = true <-> offGrid p head \/ In head (tl l).
Proof.
  unfold checkCollision. destruct (hitsWall p head) eqn:E.
  - apply hitsWall_offGrid in E. tauto.
  - rewrite onSnake_In. split; [tauto |].
    intros [H | H]; [| exact H].
    apply hitsWall_offGrid in H. congruence.
Qed.

(** ** What one tick commits *)

Section TickCases.

Variable p : SnakeGameProps.
Variable s : GameState.
Variables (head : Coordinate) (rest : list Coordinate).
Hypothesis playing : gameOver s = false.
Hypothesis shape : snake s = head :: rest.

Let newHead : Coordinate := advance (direction s) head.

(** No food under the new head: the tail is dropped, no draw is used. *)
Lemma tick_move (rs : list Q) :
  sameCell newHead (food s) = false ->
  tick p rs s =
  Some ({| snake := newHead :: removelast (snake s);
           food := food s;
           direction := direction s;
           score := score s;
           gameOver := checkCollision p newHead (newHead :: removelast (snake s)) |},
        rs).
Proof.
  subst newHead. intros Hfood. unfold tick, moveSnake, commit.
  rewrite playing, shape, Hfood.
  change (removelast (?h :: head :: rest))
    with (h :: removelast (head :: rest)).
  unfold bind at 1. unfold ret at 1.
  destruct (checkCollision p _ _); cbn; [| rewrite playing]; reflexivity.
Qed.

(** Food under the new head: the score goes up, the food is respawned on
    the grown snake, and the tail stays. *)
Lemma tick_eat (rs : list Q) :
  sameCell newHead (food s) = true ->
  tick p rs s =
  match spawnFood_loop p (newHead :: snake s) rs with
  | Some (newFood, rs') =>
      Some ({| snake := newHead :: snake s;
               food := newFood;
               direction := direction s;
               score := score s + 1;
               gameOver := checkCollision p newHead (newHead :: snake s) |},
            rs')
  | None => None
  end.
Proof.
  subst newHead. intros Hfood. unfold tick, moveSnake, commit.
  rewrite playing, shape, Hfood.
  unfold bind, spawnFood, setScore, modify; cbn [pending randoms].
  destruct (spawnFood_loop p _ rs) as [[newFood rs'] |]; [| reflexivity].
  unfold ret, setFood, modify; cbn [pending randoms].
  destruct (checkCollision p _ _); cbn; [| rewrite playing]; reflexivity.
Qed.

End TickCases.

Lemma tick_gameOver (p : SnakeGameProps) (rs : list Q) (s : GameState) :
  gameOver s = true -> tick p rs s = Some (s, rs).
Proof.
  intros Hover. unfold tick, moveSnake, commit. rewrite Hover. reflexivity.
Qed.

Lemma tick_empty (p : SnakeGameProps) (rs : list Q) (s : GameState) :
  snake s = [] -> tick p rs s = Some (s, rs).
Proof.
  intros Hnil. unfold tick, moveSnake, commit.
  destruct (gameOver s); [reflexivity |].
  rewrite Hnil. cbn. rewrite <- Hnil. destruct s; reflexivity.
Qed.

(** ** The rejection loop of [spawnFood] *)

Lemma spawnFood_loop_ind2 (P : list Q -> Prop) :
  P [] -> (forall r, P [r]) ->
  (forall rx ry rs, P rs -> P (rx :: ry :: rs)) ->
  forall rs, P rs.
Proof.
  intros Hnil Hone Hstep.
  assert (H : forall rs, P rs /\ (forall r, P (r :: rs))).
  { induction rs as [| r rs [IH1 IH2]].
    - split; [exact Hnil | exact Hone].
    - split; [apply IH2 |]. intros r'. apply Hstep. exact IH1. }
  intros rs. apply H.
Qed.

(** The loop commits the first candidate that is on no segment; the draws
    before it all gave cells of the snake. *)
Lemma spawnFood_loop_sound (p : SnakeGameProps) (snakePositions : list Coordinate) :
  forall rs newFood rs',
    spawnFood_loop p snakePositions rs = Some (newFood, rs') ->
    ~ In newFood snakePositions /\
    exists rejected rx ry,
      rs = rejected ++ rx :: ry :: rs' /\
      newFood = {| x := randomCell rx (columns p); y := randomCell ry (rows p) |} /\
      Forall (fun c => In c snakePositions) (candidates p rejected).
Proof.
  intros rs. induction rs as [| r | rx ry rs IH] using spawnFood_loop_ind2;
    intros newFood rs' H; cbn in H; try discriminate.
  destruct (existsb _ snakePositions) eqn:E; cbn in H.
  - destruct (IH _ _ H) as [Hfree [rej [rx' [ry' [-> [Hcell Hrej]]]]]].
    split; [exact Hfree |].
    exists (rx :: ry :: rej), rx', ry'. split; [reflexivity |].
    split; [exact Hcell |].
    cbn. constructor; [| exact Hrej]. apply onSnake_In. exact E.
  - injection H as <- <-. split.
    + apply offSnake_notIn. exact E.
    + exists [], rx, ry. repeat split. constructor.
Qed.

(** The loop returns as soon as the draws hold a free candidate. *)
Lemma spawnFood_loop_total (p : SnakeGameProps) (snakePositions : list Coordinate) :
  forall rs,
    Exists (fun c => ~ In c snakePositions) (candidates p rs) ->
    exists newFood rs', spawnFood_loop p snakePositions rs = Some (newFood, rs').
Proof.
  intros rs. induction rs as [| r | rx ry rs IH] using spawnFood_loop_ind2;
    intros H; cbn in H; try (inversion H; fail).
  cbn. destruct (existsb _ snakePositions) eqn:E; cbn.
  - apply IH. inversion H as [? ? Hfree | ? ? Hlater]; subst; [| exact Hlater].
    apply onSnake_In in E. contradiction.
  - eauto.
Qed.

Lemma columns_pos (p : SnakeGameProps) : props_ok p -> (0 < columns p)%Q.
Proof.
  intros [Hw [_ Hg]]. unfold columns. apply Qlt_shift_div_l; [exact Hg |].
  rewrite Qmult_0_l. exact Hw.
Qed.

Lemma rows_pos (p : SnakeGameProps) : props_ok p -> (0 < rows p)%Q.
Proof.
  intros [_ [Hh Hg]]. unfold rows. apply Qlt_shift_div_l; [exact Hg |].
  rewrite Qmult_0_l. exact Hh.
Qed.

(** [Math.floor(r * bound)] is a cell index below a positive bound. *)
Lemma randomCell_bounds (r bound : Q) :
  unitInterval r -> (0 < bound)%Q ->
  0 <= randomCell r bound /\ (inject_Z (randomCell r bound) < bound)%Q.
Proof.
  intros [Hlo Hhi] Hb. unfold randomCell. split.
  - change 0 with (Qfloor 0). apply Qfloor_resp_le.
    apply Qmult_le_0_compat; [exact Hlo | apply Qlt_le_weak; exact Hb].
  - apply Qle_lt_trans with (r * bound)%Q; [apply Qfloor_le |].
    setoid_replace bound with (1 * bound)%Q at 2 by (symmetry; apply Qmult_1_l).
    apply Qmult_lt_compat_r; assumption.
Qed.

Lemma spawnFood_loop_inGrid (p : SnakeGameProps) (snakePositions : list Coordinate) :
  props_ok p ->
  forall rs newFood rs',
    Forall unitInterval rs ->
    spawnFood_loop p snakePositions rs = Some (newFood, rs') ->
    inGrid p newFood /\ Forall unitInterval rs'.
Proof.
  intros Hp rs. induction rs as [| r | rx ry rs IH] using spawnFood_loop_ind2;
    intros newFood rs' Hunit H; cbn in H; try discriminate.
  inversion Hunit as [| ? ? Hrx Hunit']; subst.
  inversion Hunit' as [| ? ? Hry Hunit'']; subst.
  destruct (existsb _ snakePositions); cbn in H.
  - apply (IH _ _ Hunit'' H).
  - injection H as <- <-. split; [| exact Hunit''].
    destruct (randomCell_bounds rx (columns p) Hrx (columns_pos p Hp)) as [Hx1 Hx2].
    destruct (randomCell_bounds ry (rows p) Hry (rows_pos p Hp)) as [Hy1 Hy2].
    unfold inGrid; cbn. repeat split; assumption.
Qed.

(** ** C1: a tick into a wall *)

(** C1, as stated, fails.  On the default 20x20 grid the tick of
    [wallState] sets [gameOver] but also commits the moved snake, whose head
    [(20,10)] is outside the grid.  On the 13-column grid, five ticks from
    the starting state drive the head onto the starting food [(13,10)], which
    is outside that grid: that tick sets [gameOver] and also increments the
    score and respawns the food. *)
Lemma wall_tick_changes_state :
  (gameOver wallState = false /\
   offGrid defaultProps (advance (direction wallState) (mkCoordinate 19 10)) /\
   tick defaultProps [] wallState =
     Some ({| snake := [mkCoordinate 20 10; mkCoordinate 19 10; mkCoordinate 18 10];
              food := mkCoordinate 13 10;
              direction := RIGHT;
              score := 0;
              gameOver := true |}, []) /\
   [mkCoordinate 20 10; mkCoordinate 19 10; mkCoordinate 18 10] <> snake wallState)
  /\
  (ticks narrowProps 4 [] initialState =
     Some ({| snake := [mkCoordinate 12 10; mkCoordinate 11 10; mkCoordinate 10 10];
              food := mkCoordinate 13 10;
              direction := RIGHT;
              score := 0;
              gameOver := false |}, []) /\
   offGrid narrowProps (advance RIGHT (mkCoordinate 12 10)) /\
   tick narrowProps [(1 # 2)%Q; (1 # 2)%Q]
     {| snake := [mkCoordinate 12 10; mkCoordinate 11 10; mkCoordinate 10 10];
        food := mkCoordinate 13 10;
        direction := RIGHT;
        score := 0;
        gameOver := false |} =
     Some ({| snake := [mkCoordinate 13 10; mkCoordinate 12 10;
                        mkCoordinate 11 10; mkCoordinate 10 10];
              food := mkCoordinate 6 10;
              direction := RIGHT;
              score := 1;
              gameOver := true |}, [])).
Proof.
  split; [split; [| split; [| split]] | split; [| split]].
  - reflexivity.
  - right; left. vm_compute. discriminate.
  - vm_compute. reflexivity.
  - discriminate.
  - vm_compute. reflexivity.
  - right; left. vm_compute. discriminate.
  - vm_compute. reflexivity.
Qed.

(** C1, amended: in a Playing state whose new head is outside the grid and
    is not the food cell, the tick sets [gameOver], leaves food, score and
    direction as they were, draws no random number, and commits the moved
    snake: the new head in front of the old snake without its last segment. *)
Theorem wall_collision_tick (p : SnakeGameProps) (rs : list Q) (s : GameState)
  (head : Coordinate) (rest : list Coordinate) :
  gameOver s = false ->
  snake s = head :: rest ->
  offGrid p (advance (direction s) head) ->
  advance (direction s) head <> food s ->
  tick p rs s =
  Some ({| snake := advance (direction s) head :: removelast (snake s);
           food := food s;
           direction := direction s;
           score := score s;
           gameOver := true |}, rs).
Proof.
  intros Hplay Hshape Hoff Hfood.
  rewrite (tick_move p s head rest Hplay Hshape rs)
    by (apply sameCell_neq; exact Hfood).
  replace (checkCollision p _ _) with true; [reflexivity |].
  symmetry. apply checkCollision_spec. left. exact Hoff.
Qed.

Lemma wall_collision_tick_witness :
  tick defaultProps [] wallState =
  Some ({| snake := [mkCoordinate 20 10; mkCoordinate 19 10; mkCoordinate 18 10];
           food := mkCoordinate 13 10;
           direction := RIGHT;
           score := 0;
           gameOver := true |}, []).
Proof.
  apply (wall_collision_tick defaultProps [] wallState
           (mkCoordinate 19 10) [mkCoordinate 18 10; mkCoordinate 17 10]).
  - reflexivity.
  - reflexivity.
  - right; left. vm_compute. discriminate.
  - discriminate.
Defined.

(** ** C2: the self-collision test *)

(** C2, as stated, fails.  In [coilState] the new head [(6,5)] is the last
    segment of the pre-tick snake and no food is eaten; the tail is popped
    before the test, so the tick does not end the game. *)
Lemma tail_cell_is_free :
  gameOver coilState = false /\
  In (advance (direction coilState) (mkCoordinate 5 5)) (snake coilState) /\
  tick defaultProps [] coilState =
    Some ({| snake := [mkCoordinate 6 5; mkCoordinate 5 5; mkCoordinate 5 6; mkCoordinate 6 6];
             food := mkCoordinate 13 10;
             direction := RIGHT;
             score := 1;
             gameOver := false |}, []).
Proof.
  split; [reflexivity | split].
  - cbn. right; right; right; left. reflexivity.
  - vm_compute. reflexivity.
Qed.

(** C2, amended: the collision test of a tick runs on the snake after this
    tick's growth or shrink, skipping the new head at index 0.  So a tick of
    a Playing state ends the game exactly when the new head is outside the
    grid or equals a segment of the pre-tick snake that is still there: any
    segment when food is eaten, any segment but the last when it is not.
    Stepping on the cell the tail vacates does not end the game.  A tick that
    eats no food always returns. *)
Theorem self_collision_tick (p : SnakeGameProps) (rs : list Q) (s : GameState)
  (head : Coordinate) (rest : list Coordinate) :
  gameOver s = false ->
  snake s = head :: rest ->
  (advance (direction s) head <> food s ->
   exists s', tick p rs s = Some (s', rs)) /\
  (forall s' rs',
     tick p rs s = Some (s', rs') ->
     (gameOver s' = true <->
      offGrid p (advance (direction s) head) \/
      In (advance (direction s) head)
         (if sameCell (advance (direction s) head) (food s)
          then snake s
          else removelast (snake s)))).
Proof.
  intros Hplay Hshape. split.
  - intros Hfood. eexists.
    apply (tick_move p s head rest Hplay Hshape rs).
    apply sameCell_neq. exact Hfood.
  - intros s' rs' Htick.
    destruct (sameCell (advance (direction s) head) (food s)) eqn:Hfood.
    + rewrite (tick_eat p s head rest Hplay Hshape rs Hfood) in Htick.
      destruct (spawnFood_loop p _ rs) as [[newFood rs''] |]; [| discriminate].
      injection Htick as <- <-. cbn [gameOver].
      rewrite checkCollision_spec. reflexivity.
    + rewrite (tick_move p s head rest Hplay Hshape rs Hfood) in Htick.
      injection Htick as <- <-. cbn [gameOver].
      rewrite checkCollision_spec. reflexivity.
Qed.

Lemma self_collision_tick_witness :
  (exists s', tick defaultProps [] knotState = Some (s', []) /\ gameOver s' = true) /\
  (exists s', tick defaultProps [] coilState = Some (s', []) /\ gameOver s' = false).
Proof.
  split.
  - destruct (self_collision_tick defaultProps [] knotState (mkCoordinate 5 5)
                [mkCoordinate 5 6; mkCoordinate 6 6; mkCoordinate 6 5; mkCoordinate 7 5]
                eq_refl eq_refl) as [Hret Hiff].
    destruct Hret as [s' Hs']; [discriminate |].
    exists s'. split; [exact Hs' |].
    apply (Hiff s' [] Hs'). right. cbn. right; right; right; left. reflexivity.
  - destruct (self_collision_tick defaultProps [] coilState (mkCoordinate 5 5)
                [mkCoordinate 5 6; mkCoordinate 6 6; mkCoordinate 6 5]
                eq_refl eq_refl) as [Hret Hiff].
    destruct Hret as [s' Hs']; [discriminate |].
    exists s'. split; [exact Hs' |].
    destruct (gameOver s') eqn:Hover; [exfalso | reflexivity].
    apply (Hiff s' [] Hs') in Hover. destruct Hover as [Hoff | Hin].
    + apply offGrid_not_inGrid in Hoff. apply Hoff.
      unfold inGrid; cbn. repeat split; try lia; vm_compute; reflexivity.
    + cbn in Hin. intuition discriminate.
Defined.

(** ** C3: movement *)

(** C3: in a Playing state the new head is the old head moved one cell in
    the current direction (UP: y-1, DOWN: y+1, LEFT: x-1, RIGHT: x+1).  When
    the new head is not the food cell the tick returns, and the new snake is
    the new head in front of the old snake without its last segment, of the
    same length (whether or not a collision is detected).  When the new head
    is the food cell, every tick that returns commits the new head in front of
    the whole old snake, one segment longer, and the tick does return when the
    draws hold a candidate off the grown snake. *)
Theorem movement_tick (p : SnakeGameProps) (rs : list Q) (s : GameState)
  (head : Coordinate) (rest : list Coordinate) :
  gameOver s = false ->
  snake s = head :: rest ->
  (x (advance (direction s) head), y (advance (direction s) head)) =
    match direction s with
    | UP => (x head, y head - 1)
    | DOWN => (x head, y head + 1)
    | LEFT => (x head - 1, y head)
    | RIGHT => (x head + 1, y head)
    end /\
  (advance (direction s) head <> food s ->
   exists s',
     tick p rs s = Some (s', rs) /\
     snake s' = advance (direction s) head :: removelast (snake s) /\
     List.length (snake s') = List.length (snake s)) /\
  (advance (direction s) head = food s ->
   (forall s' rs',
      tick p rs s = Some (s', rs') ->
      snake s' = advance (direction s) head :: snake s /\
      List.length (snake s') = S (List.length (snake s))) /\
   (Exists (fun c => ~ In c (advance (direction s) head :: snake s))
           (candidates p rs) ->
    exists s' rs', tick p rs s = Some (s', rs'))).
Proof.
  intros Hplay Hshape. split; [destruct (direction s); reflexivity |]. split.
  - intros Hfood. apply sameCell_neq in Hfood.
    eexists. split; [apply (tick_move p s head rest Hplay Hshape rs Hfood) |].
    cbn [snake]. split; [reflexivity |].
    rewrite Hshape. cbn [List.length]. f_equal.
    clear. revert head. induction rest as [| c l IH]; intros head; [reflexivity |].
    cbn [removelast List.length]. cbn [removelast List.length] in IH.
    rewrite <- (IH c). reflexivity.
  - intros Hfood. apply sameCell_eq in Hfood.
    pose proof (tick_eat p s head rest Hplay Hshape rs Hfood) as Htick.
    split.
    + intros s' rs' Hret. rewrite Htick in Hret.
      destruct (spawnFood_loop p _ rs) as [[newFood rs''] |]; [| discriminate].
      injection Hret as <- <-. cbn [snake List.length]. split; reflexivity.
    + intros Hfree. rewrite Htick.
      destruct (spawnFood_loop_total p _ rs Hfree) as [newFood [rs' ->]].
      eauto.
Qed.

Lemma movement_tick_witness :
  (exists s', tick defaultProps [] initialState = Some (s', []) /\
              snake s' = [mkCoordinate 9 10; mkCoordinate 8 10; mkCoordinate 7 10] /\
              List.length (snake s') = 3%nat) /\
  (exists s' rs', tick defaultProps [(1 # 4)%Q; (1 # 4)%Q] feedState = Some (s', rs') /\
                  List.length (snake s') = 4%nat).
Proof.
  split.
  - destruct (movement_tick defaultProps [] initialState (mkCoordinate 8 10)
                [mkCoordinate 7 10; mkCoordinate 6 10] eq_refl eq_refl)
      as [_ [Hmove _]].
    destruct Hmove as [s' [Hs' [Hsnake Hlen]]]; [discriminate |].
    exists s'. split; [exact Hs' |]. split; [exact Hsnake | exact Hlen].
  - destruct (movement_tick defaultProps [(1 # 4)%Q; (1 # 4)%Q] feedState
                (mkCoordinate 12 10) [mkCoordinate 11 10; mkCoordinate 10 10]
                eq_refl eq_refl)
      as [_ [_ Heat]].
    destruct (Heat eq_refl) as [Hgrow Hret].
    destruct Hret as [s' [rs' Hs']].
    + vm_compute. apply Exists_cons_hd. intros H.
      repeat (destruct H as [H | H]; [discriminate |]). exact H.
    + exists s', rs'. split; [exact Hs' |].
      apply (Hgrow s' rs' Hs').
Defined.

(** ** C4: the terminal state *)

(** C4: once [gameOver] is true, any number of ticks leaves the whole state
    (snake, food, direction, score, gameOver) as it is and draws no random
    number; [init()] is what leaves the terminal state. *)
Theorem terminal_state_is_fixed (p : SnakeGameProps) (s : GameState) :
  gameOver s = true ->
  (forall n rs, ticks p n rs s = Some (s, rs)) /\
  gameOver (init s) = false.
Proof.
  intros Hover. split; [| reflexivity].
  induction n as [| n IH]; intros rs; cbn [ticks]; [reflexivity |].
  rewrite (tick_gameOver p rs s Hover). apply IH.
Qed.

Lemma terminal_state_is_fixed_witness :
  ticks defaultProps 3 [(1 # 4)%Q]
    {| snake := [mkCoordinate 20 10; mkCoordinate 19 10; mkCoordinate 18 10];
       food := mkCoordinate 13 10;
       direction := RIGHT;
       score := 0;
       gameOver := true |} =
  Some ({| snake := [mkCoordinate 20 10; mkCoordinate 19 10; mkCoordinate 18 10];
           food := mkCoordinate 13 10;
           direction := RIGHT;
           score := 0;
           gameOver := true |}, [(1 # 4)%Q]).
Proof.
  apply (terminal_state_is_fixed defaultProps
           {| snake := [mkCoordinate 20 10; mkCoordinate 19 10; mkCoordinate 18 10];
              food := mkCoordinate 13 10;
              direction := RIGHT;
              score := 0;
              gameOver := true |} eq_refl).
Defined.

(** ** C5: reset *)

(** C5: [init()] is deterministic.  From any state, and whatever the random
    source holds, it commits the same state, snake [(8,10),(7,10),(6,10)]
    (head first), direction RIGHT, food (13,10), score 0, gameOver false,
    and it draws no random number. *)
Theorem init_deterministic (rs : list Q) (s1 s2 : GameState) :
  commit initGame rs s1 =
    Some ({| snake := [mkCoordinate 8 10; mkCoordinate 7 10; mkCoordinate 6 10];
             food := mkCoordinate 13 10;
             direction := RIGHT;
             score := 0;
             gameOver := false |}, rs) /\
  init s1 =
    {| snake := [mkCoordinate 8 10; mkCoordinate 7 10; mkCoordinate 6 10];
       food := mkCoordinate 13 10;
       direction := RIGHT;
       score := 0;
       gameOver := false |} /\
  init s1 = init s2.
Proof. repeat split. Qed.

(** ** C9: the first tick of a fresh game *)

(** C9: on a grid of 20 columns and 20 rows, one tick from the state with
    snake [(8,10),(7,10),(6,10)], direction RIGHT, food (13,10), score 0 and
    gameOver false gives snake [(9,10),(8,10),(7,10)], the same food, score 0
    and gameOver false. *)
Theorem first_tick_example (p : SnakeGameProps) (rs : list Q) :
  (columns p == 20)%Q ->
  (rows p == 20)%Q ->
  tick p rs
    {| snake := [mkCoordinate 8 10; mkCoordinate 7 10; mkCoordinate 6 10];
       food := mkCoordinate 13 10;
       direction := RIGHT;
       score := 0;
       gameOver := false |} =
  Some ({| snake := [mkCoordinate 9 10; mkCoordinate 8 10; mkCoordinate 7 10];
           food := mkCoordinate 13 10;
           direction := RIGHT;
           score := 0;
           gameOver := false |}, rs).
Proof.
  intros Hc Hr.
  assert (Hfree : checkCollision p (mkCoordinate 9 10)
                    [mkCoordinate 9 10; mkCoordinate 8 10; mkCoordinate 7 10] = false).
  { unfold checkCollision.
    replace (hitsWall p (mkCoordinate 9 10)) with false; [reflexivity |].
    symmetry. apply hitsWall_inGrid. unfold inGrid; cbn [x y].
    rewrite Hc, Hr. repeat split; try lia; reflexivity. }
  etransitivity.
  - apply (tick_move p initialState (mkCoordinate 8 10)
             [mkCoordinate 7 10; mkCoordinate 6 10] eq_refl eq_refl rs eq_refl).
  - cbn. cbn in Hfree. rewrite Hfree. reflexivity.
Qed.

Lemma first_tick_example_witness :
  tick defaultProps []
    {| snake := [mkCoordinate 8 10; mkCoordinate 7 10; mkCoordinate 6 10];
       food := mkCoordinate 13 10;
       direction := RIGHT;
       score := 0;
       gameOver := false |} =
  Some ({| snake := [mkCoordinate 9 10; mkCoordinate 8 10; mkCoordinate 7 10];
           food := mkCoordinate 13 10;
           direction := RIGHT;
           score := 0;
           gameOver := false |}, []).
Proof.
  apply (first_tick_example defaultProps []); vm_compute; reflexivity.
Defined.

(** ** C6: direction requests *)






(** The check is made against the direction state, which a request changes
    at once: two accepted requests between two ticks (UP, then LEFT, while
    moving RIGHT) leave the opposite of the direction of the last move. *)
Remark two_requests_between_ticks :
  direction (requestDirection LEFT (requestDirection UP initialState)) =
  opposite (direction initialState).
Proof. reflexivity. Qed.

(** ** C7: food respawn *)

(** C7: a respawn commits a cell that is on no segment of the snake it is
    given, and every candidate it drew before that one was on a segment.
    In a tick that eats, the snake given is the grown one, so the new food is
    on no segment of the committed snake.  The respawn returns as soon as the
    draws hold a candidate off the snake. *)
Theorem respawned_food_off_snake (p : SnakeGameProps) :
  (forall snakePositions rs s s' rs',
     commit (spawnFood p snakePositions) rs s = Some (s', rs') ->
     ~ In (food s') snakePositions /\
     exists rejected rx ry,
       rs = rejected ++ rx :: ry :: rs' /\
       food s' = {| x := randomCell rx (columns p); y := randomCell ry (rows p) |} /\
       Forall (fun c => In c snakePositions) (candidates p rejected)) /\
  (forall rs s head rest s' rs',
     gameOver s = false ->
     snake s = head :: rest ->
     advance (direction s) head = food s ->
     tick p rs s = Some (s', rs') ->
     snake s' = advance (direction s) head :: snake s /\
     ~ In (food s') (snake s')) /\
  (forall snakePositions rs s,
     Exists (fun c => ~ In c snakePositions) (candidates p rs) ->
     exists s' rs', commit (spawnFood p snakePositions) rs s = Some (s', rs')).
Proof.
  split; [| split].
  - intros sp rs s s' rs' H. unfold commit, spawnFood in H. cbn [randoms pending] in H.
    destruct (spawnFood_loop p sp rs) as [[newFood rs''] |] eqn:E; [| discriminate].
    cbn in H. injection H as <- <-. cbn [food].
    apply (spawnFood_loop_sound p sp rs newFood rs'' E).
  - intros rs s head rest s' rs' Hplay Hshape Hfood Htick.
    apply sameCell_eq in Hfood.
    rewrite (tick_eat p s head rest Hplay Hshape rs Hfood) in Htick.
    destruct (spawnFood_loop p _ rs) as [[newFood rs''] |] eqn:E; [| discriminate].
    injection Htick as <- <-. cbn [snake food]. split; [reflexivity |].
    apply (spawnFood_loop_sound p _ rs newFood rs'' E).
  - intros sp rs s Hfree. unfold commit, spawnFood. cbn [randoms pending].
    destruct (spawnFood_loop_total p sp rs Hfree) as [newFood [rs' ->]].
    cbn. eauto.
Qed.

Lemma respawned_food_off_snake_witness :
  exists s' rs',
    tick defaultProps [(1 # 2)%Q; (1 # 2)%Q; (1 # 4)%Q; (3 # 4)%Q] feedState
      = Some (s', rs') /\
    ~ In (food s') (snake s').
Proof.
  exists {| snake := [mkCoordinate 13 10; mkCoordinate 12 10;
                      mkCoordinate 11 10; mkCoordinate 10 10];
            food := mkCoordinate 5 15;
            direction := RIGHT;
            score := 1;
            gameOver := false |}, [].
  assert (Htick : tick defaultProps [(1 # 2)%Q; (1 # 2)%Q; (1 # 4)%Q; (3 # 4)%Q] feedState
                  = Some ({| snake := [mkCoordinate 13 10; mkCoordinate 12 10;
                                       mkCoordinate 11 10; mkCoordinate 10 10];
                             food := mkCoordinate 5 15;
                             direction := RIGHT;
                             score := 1;
                             gameOver := false |}, []))
    by (vm_compute; reflexivity).
  split; [exact Htick |].
  apply (proj1 (proj2 (respawned_food_off_snake defaultProps))
           [(1 # 2)%Q; (1 # 2)%Q; (1 # 4)%Q; (3 # 4)%Q] feedState (mkCoordinate 12 10)
           [mkCoordinate 11 10; mkCoordinate 10 10] _ [] eq_refl eq_refl eq_refl Htick).
Defined.

(** ** C8: the score *)

(** C8: a tick that returns raises the score by exactly 1 if and only if the
    game is being played and the new head equals the food coordinate, and
    leaves the score as it is otherwise; so the score never decreases along
    any series of ticks. *)
Theorem score_monotone (p : SnakeGameProps) :
  (forall rs s s' rs',
     tick p rs s = Some (s', rs') ->
     (score s' = score s + 1 <->
      gameOver s = false /\
      exists head rest, snake s = head :: rest /\ advance (direction s) head = food s) /\
     (score s' = score s + 1 \/ score s' = score s)) /\
  (forall n rs s s' rs',
     ticks p n rs s = Some (s', rs') -> score s <= score s').
Proof.
  assert (Hone : forall rs s s' rs',
     tick p rs s = Some (s', rs') ->
     (score s' = score s + 1 <->
      gameOver s = false /\
      exists head rest, snake s = head :: rest /\ advance (direction s) head = food s) /\
     (score s' = score s + 1 \/ score s' = score s)).
  { intros rs s s' rs' Htick.
    destruct (gameOver s) eqn:Hover.
    { rewrite (tick_gameOver p rs s Hover) in Htick. injection Htick as <- <-.
      split; [| right; reflexivity].
      split; [lia | intros [H _]; discriminate]. }
    destruct (snake s) as [| head rest] eqn:Hshape.
    { rewrite (tick_empty p rs s Hshape) in Htick. injection Htick as <- <-.
      split; [| right; reflexivity].
      split; [lia | intros [_ [h [r [H _]]]]; discriminate]. }
    destruct (sameCell (advance (direction s) head) (food s)) eqn:Hfood.
    - rewrite (tick_eat p s head rest Hover Hshape rs Hfood) in Htick.
      destruct (spawnFood_loop p _ rs) as [[newFood rs''] |]; [| discriminate].
      injection Htick as <- <-. cbn [score].
      split; [| left; reflexivity].
      split; [| reflexivity]. intros _. split; [reflexivity |].
      exists head, rest. split; [reflexivity | apply sameCell_eq; exact Hfood].
    - rewrite (tick_move p s head rest Hover Hshape rs Hfood) in Htick.
      injection Htick as <- <-. cbn [score].
      split; [| right; reflexivity].
      split; [lia |]. intros [_ [h [r [Hhr Heq]]]].
      injection Hhr as <- <-. apply sameCell_eq in Heq. congruence. }
  split; [exact Hone |].
  induction n as [| n IH]; intros rs s s' rs' Hrun; cbn [ticks] in Hrun.
  - injection Hrun as <- <-. lia.
  - destruct (tick p rs s) as [[s1 rs1] |] eqn:Htick; [| discriminate].
    specialize (IH rs1 s1 s' rs' Hrun).
    destruct (Hone rs s s1 rs1 Htick) as [_ [H | H]]; lia.
Qed.

Lemma score_monotone_witness :
  (exists s' rs', tick defaultProps [(1 # 4)%Q; (3 # 4)%Q] feedState = Some (s', rs') /\
                  score s' = score feedState + 1) /\
  (exists s' rs', ticks defaultProps 6 [(1 # 4)%Q; (3 # 4)%Q] initialState = Some (s', rs') /\
                  score initialState <= score s').
Proof.
  split.
  - assert (Htick : tick defaultProps [(1 # 4)%Q; (3 # 4)%Q] feedState
                    = Some ({| snake := [mkCoordinate 13 10; mkCoordinate 12 10;
                                         mkCoordinate 11 10; mkCoordinate 10 10];
                               food := mkCoordinate 5 15;
                               direction := RIGHT;
                               score := 1;
                               gameOver := false |}, []))
      by (vm_compute; reflexivity).
    eexists. eexists. split; [exact Htick |].
    apply (proj1 (score_monotone defaultProps) _ _ _ _ Htick).
    split; [reflexivity |].
    exists (mkCoordinate 12 10), [mkCoordinate 11 10; mkCoordinate 10 10].
    split; reflexivity.
  - assert (Hrun : ticks defaultProps 6 [(1 # 4)%Q; (3 # 4)%Q] initialState
                   = Some ({| snake := [mkCoordinate 14 10; mkCoordinate 13 10;
                                        mkCoordinate 12 10; mkCoordinate 11 10];
                              food := mkCoordinate 5 15;
                              direction := RIGHT;
                              score := 1;
                              gameOver := false |}, []))
      by (vm_compute; reflexivity).
    eexists. eexists. split; [exact Hrun |].
    apply (proj2 (score_monotone defaultProps) _ _ _ _ _ Hrun).
Defined.

(** ** C10: the food stays on the grid *)

(** A key press draws no random number, and either keeps the food or resets
    the game. *)
Lemma handleKeyDown_food (key : string) (rs : list Q) (s : GameState) :
  exists s',
    commit (handleKeyDown key s) rs s = Some (s', rs) /\
    (food s' = food s \/ s' = initialState).
Proof.
  unfold handleKeyDown, commit. destruct (gameOver s).
  - destruct (String.eqb key "Enter"); eexists; split; try reflexivity.
    + right. reflexivity.
    + left. reflexivity.
  - repeat match goal with
           | |- context [String.eqb key ?k] => destruct (String.eqb key k)
           end;
      destruct (direction s); eexists; (split; [reflexivity |]); left; reflexivity.
Qed.

(** One event keeps the food on the grid and the remaining draws in [0,1). *)
Lemma dispatch_food_inGrid (p : SnakeGameProps) (e : Event) (rs : list Q)
  (s s' : GameState) (rs' : list Q) :
  props_ok p ->
  inGrid p (food initialState) ->
  inGrid p (food s) ->
  Forall unitInterval rs ->
  commit (dispatch p e s) rs s = Some (s', rs') ->
  inGrid p (food s') /\ Forall unitInterval rs'.
Proof.
  intros Hp Hstart Hfood Hunit Hstep. destruct e as [| key]; cbn [dispatch] in Hstep.
  - change (tick p rs s = Some (s', rs')) in Hstep.
    destruct (gameOver s) eqn:Hover.
    { rewrite (tick_gameOver p rs s Hover) in Hstep. injection Hstep as <- <-.
      split; assumption. }
    destruct (snake s) as [| head rest] eqn:Hshape.
    { rewrite (tick_empty p rs s Hshape) in Hstep. injection Hstep as <- <-.
      split; assumption. }
    destruct (sameCell (advance (direction s) head) (food s)) eqn:Heat.
    + rewrite (tick_eat p s head rest Hover Hshape rs Heat) in Hstep.
      destruct (spawnFood_loop p _ rs) as [[newFood rs''] |] eqn:E; [| discriminate].
      injection Hstep as <- <-. cbn [food].
      apply (spawnFood_loop_inGrid p _ Hp rs newFood rs'' Hunit E).
    + rewrite (tick_move p s head rest Hover Hshape rs Heat) in Hstep.
      injection Hstep as <- <-. split; assumption.
  - destruct (handleKeyDown_food key rs s) as [s1 [Hs1 Hcase]].
    rewrite Hs1 in Hstep. injection Hstep as <- <-.
    split; [| exact Hunit].
    destruct Hcase as [-> | ->]; assumption.
Qed.

Lemma run_food_inGrid (p : SnakeGameProps) :
  props_ok p ->
  inGrid p (food initialState) ->
  forall es rs s s' rs',
    inGrid p (food s) ->
    Forall unitInterval rs ->
    run p es rs s = Some (s', rs') ->
    inGrid p (food s').
Proof.
  intros Hp Hstart. induction es as [| e es IH]; intros rs s s' rs' Hfood Hunit Hrun;
    cbn [run] in Hrun.
  - injection Hrun as <- <-. exact Hfood.
  - destruct (commit (dispatch p e s) rs s) as [[s1 rs1] |] eqn:Hstep; [| discriminate].
    destruct (dispatch_food_inGrid p e rs s s1 rs1 Hp Hstart Hfood Hunit Hstep)
      as [Hfood1 Hunit1].
    apply (IH rs1 s1 s' rs' Hfood1 Hunit1 Hrun).
Qed.

Lemma start_food_inGrid (p : SnakeGameProps) :
  (13 < columns p)%Q -> (10 < rows p)%Q -> inGrid p (food initialState).
Proof.
  intros Hc Hr. unfold inGrid; cbn. repeat split; try lia; assumption.
Qed.

(** C10, as stated, fails for a grid that does not contain the fixed
    starting cell.  With 13 columns ([width] 260, [gridSize] 20) the initial
    and the reset food [(13,10)] are outside the grid, and the fifth tick of
    a fresh game runs the head into the wall on that cell: it sets
    [gameOver], and also increments the score and respawns the food. *)
Lemma start_food_off_narrow_grid :
  props_ok narrowProps /\
  ~ inGrid narrowProps (food initialState) /\
  ~ inGrid narrowProps (food (init wallState)) /\
  ticks narrowProps 5 [(1 # 2)%Q; (1 # 2)%Q] initialState =
    Some ({| snake := [mkCoordinate 13 10; mkCoordinate 12 10;
                       mkCoordinate 11 10; mkCoordinate 10 10];
             food := mkCoordinate 6 10;
             direction := RIGHT;
             score := 1;
             gameOver := true |}, []) /\
  offGrid narrowProps (mkCoordinate 13 10).
Proof.
  assert (Hoff : offGrid narrowProps (mkCoordinate 13 10))
    by (right; left; vm_compute; discriminate).
  split; [| split; [| split; [| split]]].
  - repeat split.
  - apply offGrid_not_inGrid. exact Hoff.
  - apply offGrid_not_inGrid. exact Hoff.
  - vm_compute. reflexivity.
  - exact Hoff.
Qed.

(** C10, amended: on a grid of positive width, height and cell size, every
    coordinate the respawn produces from draws in [0,1) lies inside the grid.
    When the grid moreover has more than 13 columns and more than 10 rows (as
    the default 20x20 grid has), the initial and the reset food (13,10) lie
    inside it, so the food of every state reached from the initial state by
    ticks and key presses lies inside the grid; there a new head outside the
    grid is never the food, and the tick that hits the wall keeps score and
    food and draws no random number. *)
Theorem food_stays_in_grid (p : SnakeGameProps) :
  props_ok p ->
  (forall snakePositions rs s s' rs',
     Forall unitInterval rs ->
     commit (spawnFood p snakePositions) rs s = Some (s', rs') ->
     inGrid p (food s')) /\
  ((13 < columns p)%Q -> (10 < rows p)%Q ->
   inGrid p (food initialState) /\
   (forall s, inGrid p (food (init s))) /\
   (forall es rs s' rs',
      Forall unitInterval rs ->
      run p es rs initialState = Some (s', rs') ->
      inGrid p (food s') /\
      (forall head rest rs2,
         gameOver s' = false ->
         snake s' = head :: rest ->
         offGrid p (advance (direction s') head) ->
         advance (direction s') head <> food s' /\
         exists s'',
           tick p rs2 s' = Some (s'', rs2) /\
           gameOver s'' = true /\
           score s'' = score s' /\
           food s'' = food s'))).
Proof.
  intros Hp. split.
  - intros sp rs s s' rs' Hunit H. unfold commit, spawnFood in H.
    cbn [randoms pending] in H.
    destruct (spawnFood_loop p sp rs) as [[newFood rs''] |] eqn:E; [| discriminate].
    cbn in H. injection H as <- <-. cbn [food].
    apply (spawnFood_loop_inGrid p sp Hp rs newFood rs'' Hunit E).
  - intros Hc Hr. pose proof (start_food_inGrid p Hc Hr) as Hstart.
    split; [exact Hstart |]. split; [intros s; exact Hstart |].
    intros es rs s' rs' Hunit Hrun.
    pose proof (run_food_inGrid p Hp Hstart es rs initialState s' rs'
                  Hstart Hunit Hrun) as Hfood.
    split; [exact Hfood |].
    intros head rest rs2 Hplay Hshape Hoff.
    assert (Hne : advance (direction s') head <> food s').
    { intros Heq. rewrite Heq in Hoff.
      apply offGrid_not_inGrid in Hoff. contradiction. }
    split; [exact Hne |].
    eexists. split.
    + apply (tick_move p s' head rest Hplay Hshape rs2).
      apply sameCell_neq. exact Hne.
    + cbn [gameOver score food]. split; [| split; reflexivity].
      apply checkCollision_spec. left. exact Hoff.
Qed.

Lemma food_stays_in_grid_witness :
  inGrid defaultProps (food initialState) /\
  (exists s' rs',
     run defaultProps
       [Tick; Tick; Tick; Tick; Tick; KeyDown "ArrowUp"; Tick]
       [(1 # 2)%Q; (1 # 2)%Q; (1 # 4)%Q; (3 # 4)%Q] initialState = Some (s', rs') /\
     inGrid defaultProps (food s')).
Proof.
  assert (Hp : props_ok defaultProps) by (repeat split).
  destruct (food_stays_in_grid defaultProps Hp) as [_ Hinv].
  destruct Hinv as [Hstart [_ Hrun]]; [reflexivity | reflexivity |].
  split; [exact Hstart |].
  assert (Hgo : run defaultProps
       [Tick; Tick; Tick; Tick; Tick; KeyDown "ArrowUp"; Tick]
       [(1 # 2)%Q; (1 # 2)%Q; (1 # 4)%Q; (3 # 4)%Q] initialState =
       Some ({| snake := [mkCoordinate 13 9; mkCoordinate 13 10;
                          mkCoordinate 12 10; mkCoordinate 11 10];
                food := mkCoordinate 5 15;
                direction := UP;
                score := 1;
                gameOver := false |}, []))
    by (vm_compute; reflexivity).
  eexists. eexists. split; [exact Hgo |].
  apply (Hrun _ _ _ _) in Hgo; [apply Hgo |].
  repeat constructor; discriminate.
Defined.

(** * Further properties of the engine *)

(** ** Case analysis of the callbacks *)

(** What a tick that returns has committed. *)
Lemma tick_cases (p : SnakeGameProps) (rs : list Q) (s s' : GameState) (rs' : list Q) :
  tick p rs s = Some (s', rs') ->
  (s' = s /\ rs' = rs /\ (gameOver s = true \/ snake s = [])) \/
  (exists head rest,
     gameOver s = false /\ snake s = head :: rest /\
     ((advance (direction s) head <> food s /\ rs' = rs /\
       s' = {| snake := advance (direction s) head :: removelast (snake s);
               food := food s;
               direction := direction s;
               score := score s;
               gameOver := checkCollision p (advance (direction s) head)
                             (advance (direction s) head :: removelast (snake s)) |}) \/
      (advance (direction s) head = food s /\
       exists newFood,
         spawnFood_loop p (advance (direction s) head :: snake s) rs
           = Some (newFood, rs') /\
         s' = {| snake := advance (direction s) head :: snake s;
                 food := newFood;
                 direction := direction s;
                 score := score s + 1;
                 gameOver := checkCollision p (advance (direction s) head)
                               (advance (direction s) head :: snake s) |}))).
Proof.
  intros Htick.
  destruct (gameOver s) eqn:Hover.
  { rewrite (tick_gameOver p rs s Hover) in Htick. injection Htick as <- <-.
    left. auto. }
  destruct (snake s) as [| head rest] eqn:Hshape.
  { rewrite (tick_empty p rs s Hshape) in Htick. injection Htick as <- <-.
    left. auto. }
  right. exists head, rest. split; [reflexivity |]. split; [reflexivity |].
  destruct (sameCell (advance (direction s) head) (food s)) eqn:Hfood.
  - right. rewrite (tick_eat p s head rest Hover Hshape rs Hfood) in Htick.
    rewrite Hshape in Htick.
    destruct (spawnFood_loop p _ rs) as [[newFood rs''] |]; [| discriminate].
    injection Htick as <- <-. split; [apply sameCell_eq; exact Hfood |].
    exists newFood. split; reflexivity.
  - left. rewrite (tick_move p s head rest Hover Hshape rs Hfood) in Htick.
    rewrite Hshape in Htick.
    injection Htick as <- <-. split; [apply sameCell_neq; exact Hfood |].
    split; reflexivity.
Qed.

(** What a key press commits: nothing, a new direction while the game is
    played, or the reset once it is over. *)
Lemma handleKeyDown_cases (key : string) (rs : list Q) (s : GameState) :
  exists s',
    commit (handleKeyDown key s) rs s = Some (s', rs) /\
    (s' = s \/
     (gameOver s = false /\
      exists d, s' = {| snake := snake s; food := food s; direction := d;
                        score := score s; gameOver := gameOver s |}) \/
     (gameOver s = true /\ key = "Enter"%string /\ s' = initialState)).
Proof.
  unfold handleKeyDown, commit. destruct (gameOver s) eqn:Hover.
  - destruct (String.eqb key "Enter") eqn:E; eexists; split; try reflexivity.
    + right; right. apply String.eqb_eq in E. auto.
    + left. reflexivity.
  - repeat match goal with
           | |- context [String.eqb key ?k] => destruct (String.eqb key k)
           end;
      destruct (direction s) eqn:Hdir; eexists; (split; [reflexivity |]);
      cbn [pending];
      first [ left; reflexivity
            | right; left; split; [reflexivity |]; eexists; rewrite Hover; reflexivity ].
Qed.

(** A property of states that holds at the start and is kept by every
    tick and by every change of direction holds after any run of events. *)
Lemma run_invariant (p : SnakeGameProps) (I : GameState -> Prop) :
  I initialState ->
  (forall rs s s' rs', I s -> tick p rs s = Some (s', rs') -> I s') ->
  (forall s d, I s ->
     I {| snake := snake s; food := food s; direction := d;
          score := score s; gameOver := gameOver s |}) ->
  forall es rs s s' rs',
    I s -> run p es rs s = Some (s', rs') -> I s'.
Proof.
  intros Hstart Htick Hsteer.
  induction es as [| e es IH]; intros rs s s' rs' Hs Hrun; cbn [run] in Hrun.
  - injection Hrun as <- <-. exact Hs.
  - destruct (commit (dispatch p e s) rs s) as [[s1 rs1] |] eqn:Hstep; [| discriminate].
    apply (IH rs1 s1 s' rs'); [| exact Hrun].
    destruct e as [| key]; cbn [dispatch] in Hstep.
    + apply (Htick rs s s1 rs1 Hs Hstep).
    + destruct (handleKeyDown_cases key rs s) as [s2 [Hs2 Hcase]].
      rewrite Hs2 in Hstep. injection Hstep as <- <-.
      destruct Hcase as [-> | [[_ [d ->]] | [_ [_ ->]]]];
        [exact Hs | apply Hsteer; exact Hs | exact Hstart].
Qed.

(** ** Lists without their last element *)

Lemma removelast_In (c : Coordinate) (l : list Coordinate) :
  In c (removelast l) -> In c l.
Proof.
  induction l as [| a l IH]; [intros [] |].
  destruct l as [| b l]; [intros [] |].
  change (removelast (a :: b :: l)) with (a :: removelast (b :: l)).
  intros [<- | Hin]; [left; reflexivity | right; apply IH; exact Hin].
Qed.

Lemma removelast_length (a : Coordinate) (l : list Coordinate) :
  List.length (removelast (a :: l)) = List.length l.
Proof.
  revert a. induction l as [| b l IH]; intros a; [reflexivity |].
  change (removelast (a :: b :: l)) with (a :: removelast (b :: l)).
  cbn [List.length]. rewrite IH. reflexivity.
Qed.

Lemma removelast_NoDup (l : list Coordinate) :
  NoDup l -> NoDup (removelast l).
Proof.
  induction l as [| a l IH]; intros Hnd; [constructor |].
  destruct l as [| b l]; [constructor |].
  change (removelast (a :: b :: l)) with (a :: removelast (b :: l)).
  inversion Hnd as [| ? ? Hnotin Hrest]; subst.
  constructor; [| apply IH; exact Hrest].
  intros Hin. apply Hnotin. apply removelast_In. exact Hin.
Qed.

Lemma removelast_Forall (P : Coordinate -> Prop) (l : list Coordinate) :
  Forall P l -> Forall P (removelast l).
Proof.
  intros Hall. apply Forall_forall. intros c Hin.
  apply (proj1 (Forall_forall P l) Hall). apply removelast_In. exact Hin.
Qed.

Lemma removelast_chain (l : list Coordinate) :
  chain l -> chain (removelast l).
Proof.
  induction l as [| a l IH]; intros Hch; [exact I |].
  destruct l as [| b l]; [exact I |].
  change (removelast (a :: b :: l)) with (a :: removelast (b :: l)).
  destruct Hch as [Hab Hrest]. specialize (IH Hrest).
  destruct l as [| c l]; [exact I |].
  change (removelast (b :: c :: l)) with (b :: removelast (c :: l)) in *.
  split; [exact Hab | exact IH].
Qed.

Lemma advance_adjacent (d : Direction) (head : Coordinate) :
  adjacent (advance d head) head.
Proof. unfold adjacent. destruct d; cbn; lia. Qed.

Lemma checkCollision_clear (p : SnakeGameProps) (head : Coordinate)
  (l : list Coordinate) :
  checkCollision p head l = false -> inGrid p head /\ ~ In head (tl l).
Proof.
  unfold checkCollision. destruct (hitsWall p head) eqn:Hwall; [discriminate |].
  intros Hself. split; [apply hitsWall_inGrid; exact Hwall |].
  apply offSnake_notIn. exact Hself.
Qed.

(** ** What one tick keeps *)

Lemma tick_keeps_length (p : SnakeGameProps) (rs : list Q) (s s' : GameState)
  (rs' : list Q) :
  Z.of_nat (List.length (snake s)) = score s + 3 ->
  tick p rs s = Some (s', rs') ->
  Z.of_nat (List.length (snake s')) = score s' + 3.
Proof.
  intros Hlen Htick.
  destruct (tick_cases p rs s s' rs' Htick)
    as [[-> _] | [head [rest [_ [Hshape [[_ [_ ->]] | [_ [newFood [_ ->]]]]]]]]];
    [exact Hlen | |]; cbn [snake score List.length].
  - rewrite Hshape in *. rewrite removelast_length.
    cbn [List.length] in Hlen. exact Hlen.
  - lia.
Qed.

Lemma tick_keeps_food_off_snake (p : SnakeGameProps) (rs : list Q)
  (s s' : GameState) (rs' : list Q) :
  ~ In (food s) (snake s) ->
  tick p rs s = Some (s', rs') ->
  ~ In (food s') (snake s').
Proof.
  intros Hoff Htick.
  destruct (tick_cases p rs s s' rs' Htick)
    as [[-> _] | [head [rest [_ [Hshape [[Hne [_ ->]] | [_ [newFood [Hloop ->]]]]]]]]];
    [exact Hoff | |]; cbn [snake food].
  - intros [Heq | Hin]; [exact (Hne Heq) |].
    apply Hoff. apply removelast_In. exact Hin.
  - apply (spawnFood_loop_sound p _ rs newFood rs' Hloop).
Qed.

Lemma tick_keeps_NoDup (p : SnakeGameProps) (rs : list Q) (s s' : GameState)
  (rs' : list Q) :
  (gameOver s = false -> NoDup (snake s)) ->
  tick p rs s = Some (s', rs') ->
  gameOver s' = false -> NoDup (snake s').
Proof.
  intros Hnd Htick.
  destruct (tick_cases p rs s s' rs' Htick)
    as [[-> _] | [head [rest [Hplay [Hshape [[_ [_ ->]] | [_ [newFood [_ ->]]]]]]]]];
    [exact Hnd | |]; cbn [snake gameOver]; intros Hclear;
    apply checkCollision_clear in Hclear; destruct Hclear as [_ Hfree];
    cbn [tl] in Hfree; (constructor; [exact Hfree |]).
  - apply removelast_NoDup. apply Hnd. exact Hplay.
  - apply Hnd. exact Hplay.
Qed.

Lemma tick_keeps_inGrid (p : SnakeGameProps) (rs : list Q) (s s' : GameState)
  (rs' : list Q) :
  (gameOver s = false -> Forall (inGrid p) (snake s)) ->
  tick p rs s = Some (s', rs') ->
  gameOver s' = false -> Forall (inGrid p) (snake s').
Proof.
  intros Hin Htick.
  destruct (tick_cases p rs s s' rs' Htick)
    as [[-> _] | [head [rest [Hplay [Hshape [[_ [_ ->]] | [_ [newFood [_ ->]]]]]]]]];
    [exact Hin | |]; cbn [snake gameOver]; intros Hclear;
    apply checkCollision_clear in Hclear; destruct Hclear as [Hhead _];
    (constructor; [exact Hhead |]).
  - apply removelast_Forall. apply Hin. exact Hplay.
  - apply Hin. exact Hplay.
Qed.

Lemma tick_keeps_chain (p : SnakeGameProps) (rs : list Q) (s s' : GameState)
  (rs' : list Q) :
  chain (snake s) ->
  tick p rs s = Some (s', rs') ->
  chain (snake s').
Proof.
  intros Hch Htick.
  destruct (tick_cases p rs s s' rs' Htick)
    as [[-> _] | [head [rest [_ [Hshape [[_ [_ ->]] | [_ [newFood [_ ->]]]]]]]]];
    [exact Hch | |]; cbn [snake].
  - pose proof (removelast_chain _ Hch) as Hrem. rewrite Hshape in *.
    destruct rest as [| neck rest]; [exact I |].
    change (removelast (head :: neck :: rest))
      with (head :: removelast (neck :: rest)) in *.
    split; [apply advance_adjacent | exact Hrem].
  - rewrite Hshape in *. split; [apply advance_adjacent | exact Hch].
Qed.

Lemma tick_keeps_score_nonneg (p : SnakeGameProps) (rs : list Q)
  (s s' : GameState) (rs' : list Q) :
  0 <= score s ->
  tick p rs s = Some (s', rs') ->
  0 <= score s'.
Proof.
  intros Hpos Htick.
  destruct (tick_cases p rs s s' rs' Htick)
    as [[-> _] | [head [rest [_ [_ [[_ [_ ->]] | [_ [newFood [_ ->]]]]]]]]];
    cbn [score]; lia.
Qed.

Lemma sample_run :
  run defaultProps sampleEvents sampleDraws initialState = Some (sampleState, []).
Proof. vm_compute. reflexivity. Qed.

Lemma turned_run :
  run defaultProps [KeyDown "ArrowUp"; KeyDown "ArrowLeft"] [] initialState
  = Some (turnedState, []).
Proof. vm_compute. reflexivity. Qed.

Lemma start_snake_inGrid (p : SnakeGameProps) :
  (8 < columns p)%Q -> (10 < rows p)%Q ->
  Forall (inGrid p) (snake initialState).
Proof.
  intros Hc Hr.
  assert (Hcell : forall cx, 0 <= cx <= 8 -> inGrid p (mkCoordinate cx 10)).
  { intros cx Hcx. unfold inGrid; cbn [x y].
    split; [lia |]. split; [| split; [lia | exact Hr]].
    apply Qle_lt_trans with (inject_Z 8); [| exact Hc].
    rewrite <- Zle_Qle. lia. }
  cbn [snake initialState].
  constructor; [apply Hcell; lia |].
  constructor; [apply Hcell; lia |].
  constructor; [apply Hcell; lia | constructor].
Qed.

(** ** Invariants of the reachable states *)

(** X1: in every state reached from the initial state by ticks and key
    presses (restarts included), the snake has exactly [score + 3] segments
    and the score is not negative; so the snake is never empty. *)
Theorem snake_length_tracks_score (p : SnakeGameProps) (es : list Event)
  (rs : list Q) (s' : GameState) (rs' : list Q) :
  run p es rs initialState = Some (s', rs') ->
  Z.of_nat (List.length (snake s')) = score s' + 3 /\
  0 <= score s' /\
  snake s' <> [].
Proof.
  intros Hrun.
  assert (Hlen : Z.of_nat (List.length (snake s')) = score s' + 3).
  { apply (run_invariant p
             (fun s => Z.of_nat (List.length (snake s)) = score s + 3))
      with (es := es) (rs := rs) (s := initialState) (rs' := rs');
      [reflexivity | | intros s d H; exact H | reflexivity | exact Hrun].
    intros rs0 s0 s1 rs1. apply tick_keeps_length. }
  assert (Hpos : 0 <= score s').
  { apply (run_invariant p (fun s => 0 <= score s))
      with (es := es) (rs := rs) (s := initialState) (rs' := rs');
      [cbn; lia | | intros s d H; exact H | cbn; lia | exact Hrun].
    intros rs0 s0 s1 rs1. apply tick_keeps_score_nonneg. }
  split; [exact Hlen |]. split; [exact Hpos |].
  intros Hnil. rewrite Hnil in Hlen. cbn in Hlen. lia.
Qed.

Lemma snake_length_tracks_score_witness :
  Z.of_nat (List.length (snake sampleState)) = score sampleState + 3 /\
  0 <= score sampleState /\
  snake sampleState <> [].
Proof.
  apply (snake_length_tracks_score defaultProps sampleEvents sampleDraws
           sampleState [] sample_run).
Defined.

(** X2: in every state reached from the initial state by ticks and key
    presses, the food is on no segment of the snake, whether the game is
    over or not. *)
Theorem food_never_on_snake (p : SnakeGameProps) (es : list Event)
  (rs : list Q) (s' : GameState) (rs' : list Q) :
  run p es rs initialState = Some (s', rs') ->
  ~ In (food s') (snake s').
Proof.
  assert (Hstart : ~ In (food initialState) (snake initialState)).
  { cbn. intros H. repeat (destruct H as [H | H]; [discriminate |]). exact H. }
  intros Hrun.
  apply (run_invariant p (fun s => ~ In (food s) (snake s)))
    with (es := es) (rs := rs) (s := initialState) (rs' := rs');
    [exact Hstart | | intros s d H; exact H | exact Hstart | exact Hrun].
  intros rs0 s0 s1 rs1. apply tick_keeps_food_off_snake.
Qed.

Lemma food_never_on_snake_witness :
  ~ In (food sampleState) (snake sampleState).
Proof.
  apply (food_never_on_snake defaultProps sampleEvents sampleDraws
           sampleState [] sample_run).
Defined.

(** X3: in every reached state in which the game is not over, no two
    segments of the snake are on the same cell. *)
Theorem playing_snake_has_no_overlap (p : SnakeGameProps) (es : list Event)
  (rs : list Q) (s' : GameState) (rs' : list Q) :
  run p es rs initialState = Some (s', rs') ->
  gameOver s' = false ->
  NoDup (snake s').
Proof.
  assert (Hstart : gameOver initialState = false -> NoDup (snake initialState)).
  { intros _. cbn. repeat constructor; cbn; intros H;
      repeat (destruct H as [H | H]; [discriminate |]); exact H. }
  intros Hrun.
  apply (run_invariant p (fun s => gameOver s = false -> NoDup (snake s)))
    with (es := es) (rs := rs) (s := initialState) (rs' := rs');
    [exact Hstart | | intros s d H; exact H | exact Hstart | exact Hrun].
  intros rs0 s0 s1 rs1. apply tick_keeps_NoDup.
Qed.

Lemma playing_snake_has_no_overlap_witness :
  NoDup (snake sampleState).
Proof.
  apply (playing_snake_has_no_overlap defaultProps sampleEvents sampleDraws
           sampleState [] sample_run eq_refl).
Defined.

(** X4: on a grid with more than 8 columns and more than 10 rows, which
    holds the starting snake, every segment of the snake lies inside the
    grid in every reached state in which the game is not over. *)
Theorem playing_snake_inside_grid (p : SnakeGameProps) (es : list Event)
  (rs : list Q) (s' : GameState) (rs' : list Q) :
  (8 < columns p)%Q ->
  (10 < rows p)%Q ->
  run p es rs initialState = Some (s', rs') ->
  gameOver s' = false ->
  Forall (inGrid p) (snake s').
Proof.
  intros Hc Hr.
  assert (Hstart : gameOver initialState = false ->
                   Forall (inGrid p) (snake initialState))
    by (intros _; apply start_snake_inGrid; assumption).
  intros Hrun.
  apply (run_invariant p (fun s => gameOver s = false -> Forall (inGrid p) (snake s)))
    with (es := es) (rs := rs) (s := initialState) (rs' := rs');
    [exact Hstart | | intros s d H; exact H | exact Hstart | exact Hrun].
  intros rs0 s0 s1 rs1. apply tick_keeps_inGrid.
Qed.

Lemma playing_snake_inside_grid_witness :
  Forall (inGrid defaultProps) (snake sampleState).
Proof.
  apply (playing_snake_inside_grid defaultProps sampleEvents sampleDraws
           sampleState []);
    [reflexivity | reflexivity | exact sample_run | reflexivity].
Defined.

(** X5: in every reached state each segment of the snake shares a side
    with the next one: the snake is a connected path of cells. *)
Theorem snake_is_connected (p : SnakeGameProps) (es : list Event)
  (rs : list Q) (s' : GameState) (rs' : list Q) :
  run p es rs initialState = Some (s', rs') ->
  chain (snake s').
Proof.
  assert (Hstart : chain (snake initialState)).
  { cbn. unfold adjacent; cbn. repeat split. }
  intros Hrun.
  apply (run_invariant p (fun s => chain (snake s)))
    with (es := es) (rs := rs) (s := initialState) (rs' := rs');
    [exact Hstart | | intros s d H; exact H | exact Hstart | exact Hrun].
  intros rs0 s0 s1 rs1. apply tick_keeps_chain.
Qed.

Lemma snake_is_connected_witness :
  chain (snake sampleState).
Proof.
  apply (snake_is_connected defaultProps sampleEvents sampleDraws
           sampleState [] sample_run).
Defined.

(** ** Random draws *)


Lemma spawnFood_loop_full (p : SnakeGameProps) (snakePositions : list Coordinate) :
  props_ok p ->
  (forall c, inGrid p c -> In c snakePositions) ->
  forall rs,
    Forall unitInterval rs ->
    spawnFood_loop p snakePositions rs = None.
Proof.
  intros Hp Hfull rs.
  induction rs as [| r | rx ry rs IH] using spawnFood_loop_ind2;
    intros Hunit; cbn; try reflexivity.
  inversion Hunit as [| ? ? Hrx Hunit']; subst.
  inversion Hunit' as [| ? ? Hry Hunit'']; subst.
  replace (existsb _ snakePositions) with true; [cbn; apply IH; exact Hunit'' |].
  symmetry. apply onSnake_In. apply Hfull.
  destruct (randomCell_bounds rx (columns p) Hrx (columns_pos p Hp)) as [Hx1 Hx2].
  destruct (randomCell_bounds ry (rows p) Hry (rows_pos p Hp)) as [Hy1 Hy2].
  unfold inGrid; cbn [x y]. repeat split; assumption.
Qed.



(** ** Key presses *)

(** X7: a key press always returns and draws no random number.  Once the
    game is over, "Enter" commits the starting state and every other key
    leaves the state as it is.  While the game is played, no key changes
    snake, food, score or gameOver ("Enter" restarts nothing), and a key that
    is not one of the four arrow keys changes nothing at all. *)
Theorem key_press_effects (key : string) (rs : list Q) (s : GameState) :
  exists s',
    commit (handleKeyDown key s) rs s = Some (s', rs) /\
    (gameOver s = true ->
     (key = "Enter"%string -> s' = initialState) /\
     (key <> "Enter"%string -> s' = s)) /\
    (gameOver s = false ->
     snake s' = snake s /\ food s' = food s /\ score s' = score s /\
     gameOver s' = false /\
     ((forall d, key <> arrowKey d) -> s' = s)).
Proof.
  unfold handleKeyDown, commit. destruct (gameOver s) eqn:Hover.
  - destruct (String.eqb key "Enter") eqn:E; eexists; (split; [reflexivity |]);
      (split; [intros _ | intros H; discriminate]); cbn [pending].
    + split; [reflexivity |]. apply String.eqb_eq in E. intros H. contradiction.
    + apply String.eqb_neq in E. split; [intros H; contradiction | reflexivity].
  - destruct (String.eqb key "ArrowUp") eqn:Eu.
    { apply String.eqb_eq in Eu.
      destruct (direction s); eexists; (split; [reflexivity |]);
        (split; [intros H; discriminate | intros _]); cbn;
        repeat (split; [first [reflexivity | exact Hover] |]);
        intros H; destruct (H UP Eu). }
    destruct (String.eqb key "ArrowDown") eqn:Ed.
    { apply String.eqb_eq in Ed.
      destruct (direction s); eexists; (split; [reflexivity |]);
        (split; [intros H; discriminate | intros _]); cbn;
        repeat (split; [first [reflexivity | exact Hover] |]);
        intros H; destruct (H DOWN Ed). }
    destruct (String.eqb key "ArrowLeft") eqn:El.
    { apply String.eqb_eq in El.
      destruct (direction s); eexists; (split; [reflexivity |]);
        (split; [intros H; discriminate | intros _]); cbn;
        repeat (split; [first [reflexivity | exact Hover] |]);
        intros H; destruct (H LEFT El). }
    destruct (String.eqb key "ArrowRight") eqn:Er.
    { apply String.eqb_eq in Er.
      destruct (direction s); eexists; (split; [reflexivity |]);
        (split; [intros H; discriminate | intros _]); cbn;
        repeat (split; [first [reflexivity | exact Hover] |]);
        intros H; destruct (H RIGHT Er). }
    eexists. split; [reflexivity |].
    split; [intros H; discriminate | intros _]. cbn.
    repeat (split; [first [reflexivity | exact Hover] |]). reflexivity.
Qed.

Lemma key_press_effects_witness :
  exists s',
    commit (handleKeyDown "Enter" wallState) [] wallState = Some (s', []) /\
    s' = wallState.
Proof.
  destruct (key_press_effects "Enter" [] wallState) as [s' [Hs' [_ Hplay]]].
  exists s'. split; [exact Hs' |].
  apply (Hplay eq_refl). intros d. destruct d; discriminate.
Defined.

(** X9: once the game is over, no run of ticks and key presses without
    "Enter" changes anything: the state and the random source stay as they
    are. *)
Theorem game_over_until_enter (p : SnakeGameProps) (es : list Event)
  (rs : list Q) (s : GameState) :
  gameOver s = true ->
  ~ In (KeyDown "Enter") es ->
  run p es rs s = Some (s, rs).
Proof.
  intros Hover. induction es as [| e es IH]; intros Hno; cbn [run]; [reflexivity |].
  assert (Hstep : commit (dispatch p e s) rs s = Some (s, rs)).
  { destruct e as [| key]; cbn [dispatch].
    - apply (tick_gameOver p rs s Hover).
    - destruct (handleKeyDown_cases key rs s) as [s1 [Hs1 Hcase]].
      rewrite Hs1. destruct Hcase as [-> | [[Hplay _] | [_ [-> _]]]].
      + reflexivity.
      + congruence.
      + exfalso. apply Hno. left. reflexivity. }
  rewrite Hstep. apply IH. intros Hin. apply Hno. right. exact Hin.
Qed.

Lemma game_over_until_enter_witness :
  run defaultProps [Tick; KeyDown "ArrowUp"; Tick; KeyDown " "; Tick] sampleDraws
    crashedState = Some (crashedState, sampleDraws).
Proof.
  apply (game_over_until_enter defaultProps
           [Tick; KeyDown "ArrowUp"; Tick; KeyDown " "; Tick] sampleDraws
           crashedState eq_refl).
  cbn. intros H. repeat (destruct H as [H | H]; [discriminate |]). exact H.
Defined.

(** ** The full grid *)

(** X8: on a grid of positive size, when every cell of the grid is on the
    snake handed to the respawn, the respawn never returns, whatever
    [Math.random()] yields; so the tick that eats the food on the last free
    cell never returns either. *)
Theorem respawn_never_returns_on_full_grid (p : SnakeGameProps) (rs : list Q) :
  props_ok p ->
  Forall unitInterval rs ->
  (forall snakePositions s,
     (forall c, inGrid p c -> In c snakePositions) ->
     commit (spawnFood p snakePositions) rs s = None) /\
  (forall s head rest,
     gameOver s = false ->
     snake s = head :: rest ->
     advance (direction s) head = food s ->
     (forall c, inGrid p c -> In c (advance (direction s) head :: snake s)) ->
     tick p rs s = None).
Proof.
  intros Hp Hunit. split.
  - intros sp s Hfull. unfold commit, spawnFood. cbn [randoms pending].
    rewrite (spawnFood_loop_full p sp Hp Hfull rs Hunit). reflexivity.
  - intros s head rest Hplay Hshape Hfood Hfull.
    apply sameCell_eq in Hfood.
    rewrite (tick_eat p s head rest Hplay Hshape rs Hfood).
    rewrite (spawnFood_loop_full p _ Hp Hfull rs Hunit). reflexivity.
Qed.

Lemma respawn_never_returns_on_full_grid_witness :
  tick tinyProps sampleDraws lastCellState = None.
Proof.
  assert (Hp : props_ok tinyProps) by (repeat split).
  assert (Hunit : Forall unitInterval sampleDraws)
    by (repeat constructor; discriminate).
  apply (proj2 (respawn_never_returns_on_full_grid tinyProps sampleDraws Hp Hunit)
           lastCellState (mkCoordinate 0 0) [] eq_refl eq_refl eq_refl).
  intros [cx cy]. unfold inGrid, Qlt; cbn. intros [H1 [H2 [H3 H4]]].
  assert (Hcy : cy = 0) by lia. subst cy.
  assert (Hcx : cx = 0 \/ cx = 1) by lia.
  destruct Hcx as [-> | ->]; [right; left | left]; reflexivity.
Defined.

(** ** Turning back *)

Lemma tick_keeps_three_segments (p : SnakeGameProps) (rs : list Q)
  (s s' : GameState) (rs' : list Q) :
  (3 <= List.length (snake s))%nat ->
  tick p rs s = Some (s', rs') ->
  (3 <= List.length (snake s'))%nat.
Proof.
  intros Hlen Htick.
  destruct (tick_cases p rs s s' rs' Htick)
    as [[-> _] | [head [rest [_ [Hshape [[_ [_ ->]] | [_ [newFood [_ ->]]]]]]]]];
    [exact Hlen | |]; cbn [snake List.length].
  - rewrite Hshape in *. rewrite removelast_length.
    cbn [List.length] in Hlen. exact Hlen.
  - lia.
Qed.

(** X10: in every reached state in which the game is not over, a tick
    whose new head is the second segment of the snake (the direction having
    been turned to the opposite of the last move by two key presses) returns
    with [gameOver] set, the score and the food as they were. *)
Theorem reversal_into_neck_is_fatal (p : SnakeGameProps) (es : list Event)
  (rs : list Q) (s' : GameState) (rs' : list Q)
  (head neck : Coordinate) (rest : list Coordinate) :
  run p es rs initialState = Some (s', rs') ->
  gameOver s' = false ->
  snake s' = head :: neck :: rest ->
  advance (direction s') head = neck ->
  forall rs2,
    tick p rs2 s' =
    Some ({| snake := neck :: removelast (snake s');
             food := food s';
             direction := direction s';
             score := score s';
             gameOver := true |}, rs2).
Proof.
  intros Hrun Hplay Hshape Hneck rs2.
  assert (Hlen : (3 <= List.length (snake s'))%nat).
  { apply (run_invariant p (fun s => (3 <= List.length (snake s))%nat))
      with (es := es) (rs := rs) (s := initialState) (rs' := rs');
      [cbn; lia | | intros s d H; exact H | cbn; lia | exact Hrun].
    intros rs0 s0 s1 rs1. apply tick_keeps_three_segments. }
  assert (Hstart : ~ In (food initialState) (snake initialState)).
  { cbn. intros H. repeat (destruct H as [H | H]; [discriminate |]). exact H. }
  assert (Hoff : ~ In (food s') (snake s')).
  { apply (run_invariant p (fun s => ~ In (food s) (snake s)))
      with (es := es) (rs := rs) (s := initialState) (rs' := rs');
      [exact Hstart | | intros s d H; exact H | exact Hstart | exact Hrun].
    intros rs0 s0 s1 rs1. apply tick_keeps_food_off_snake. }
  assert (Hfood : sameCell (advance (direction s') head) (food s') = false).
  { apply sameCell_neq. rewrite Hneck. intros Heq. apply Hoff.
    rewrite Hshape, <- Heq. right; left. reflexivity. }
  rewrite (tick_move p s' head (neck :: rest) Hplay Hshape rs2 Hfood).
  rewrite Hneck.
  replace (checkCollision p neck (neck :: removelast (snake s'))) with true;
    [reflexivity |].
  symmetry. apply checkCollision_spec. right. cbn [tl].
  rewrite Hshape in *. destruct rest as [| third rest]; [cbn in Hlen; lia |].
  change (removelast (head :: neck :: third :: rest))
    with (head :: neck :: removelast (third :: rest)).
  right; left. reflexivity.
Qed.

Lemma reversal_into_neck_is_fatal_witness :
  tick defaultProps [] turnedState =
  Some ({| snake := [mkCoordinate 7 10; mkCoordinate 8 10; mkCoordinate 7 10];
           food := mkCoordinate 13 10;
           direction := LEFT;
           score := 0;
           gameOver := true |}, []).
Proof.
  apply (reversal_into_neck_is_fatal defaultProps
           [KeyDown "ArrowUp"; KeyDown "ArrowLeft"] [] turnedState []
           (mkCoordinate 8 10) (mkCoordinate 7 10) [mkCoordinate 6 10]
           turned_run eq_refl eq_refl eq_refl []).
Defined.

(** ** Rendering *)

(** The square of a cell of the grid has its corner on the canvas, and fits
    on it where the number of cells across is whole. *)
Lemma cell_on_canvas (size extent : Q) (idx : Z) :
  (0 < size)%Q ->
  0 <= idx ->
  (inject_Z idx < extent / size)%Q ->
  (0 <= inject_Z idx * size)%Q /\
  (inject_Z idx * size < extent)%Q /\
  (forall n, (extent / size == inject_Z n)%Q ->
             (inject_Z idx * size + size <= extent)%Q).
Proof.
  intros Hsize Hidx Hlt.
  assert (Hnz : ~ (size == 0)%Q) by (intros E; rewrite E in Hsize; discriminate).
  assert (Hback : (extent / size * size == extent)%Q)
    by (rewrite Qmult_comm; apply Qmult_div_r; exact Hnz).
  split; [| split].
  - apply Qmult_le_0_compat; [| apply Qlt_le_weak; exact Hsize].
    change 0%Q with (inject_Z 0). rewrite <- Zle_Qle. exact Hidx.
  - rewrite <- Hback. apply Qmult_lt_compat_r; assumption.
  - intros n Hn. rewrite Hn in Hlt. rewrite <- Zlt_Qlt in Hlt.
    rewrite <- Hback, Hn.
    setoid_replace (inject_Z idx * size + size)%Q
      with (inject_Z (idx + 1) * size)%Q by (rewrite inject_Z_plus; ring).
    apply Qmult_le_compat_r; [| apply Qlt_le_weak; exact Hsize].
    rewrite <- Zle_Qle. lia.
Qed.

(** X11: for props that are whole numbers of pixels below 2^53 (where the
    code's products [x * gridSize] are exact), positive, on a grid with more
    than 13 columns and more than 10 rows: in every reached state in which
    the game is not over, every square [draw] fills (one per segment, one for
    the food) has side [gridSize] and its top-left corner at whole pixel
    coordinates on the canvas; where [width] (or [height]) is a whole number
    of cells, the square does not pass the right (or bottom) edge. *)
Theorem draw_squares_on_canvas (p : SnakeGameProps) (es : list Event)
  (rs : list Q) (s' : GameState) (rs' : list Q) :
  props_ok p ->
  wholeProps p ->
  (13 < columns p)%Q ->
  (10 < rows p)%Q ->
  Forall unitInterval rs ->
  run p es rs initialState = Some (s', rs') ->
  gameOver s' = false ->
  forall left top w h,
    In (FillRect left top w h) (draw p s') ->
    w = gridSize p /\ h = gridSize p /\
    (0 <= left)%Q /\ (left < width p)%Q /\
    (0 <= top)%Q /\ (top < height p)%Q /\
    (forall n, (columns p == inject_Z n)%Q -> (left + w <= width p)%Q) /\
    (forall n, (rows p == inject_Z n)%Q -> (top + h <= height p)%Q) /\
    (exists n m, (left == inject_Z n)%Q /\ (top == inject_Z m)%Q).
Proof.
  intros Hp Hwhole Hc Hr Hunit Hrun Hplay left top w h Hin.
  assert (Hc8 : (8 < columns p)%Q)
    by (apply Qlt_trans with (2 := Hc); reflexivity).
  assert (Hsnake : Forall (inGrid p) (snake s')).
  { revert Hplay.
    apply (run_invariant p (fun s => gameOver s = false -> Forall (inGrid p) (snake s)))
      with (es := es) (rs := rs) (s := initialState) (rs' := rs');
      [ intros _; apply start_snake_inGrid; assumption
      | | intros s d H; exact H
      | intros _; apply start_snake_inGrid; assumption
      | exact Hrun ].
    intros rs0 s0 s1 rs1. apply tick_keeps_inGrid. }
  assert (Hfood : inGrid p (food s')).
  { apply (run_food_inGrid p Hp (start_food_inGrid p Hc Hr) es rs initialState s' rs'
             (start_food_inGrid p Hc Hr) Hunit Hrun). }
  assert (Hcell : exists c, inGrid p c /\ cellRect p c = FillRect left top w h).
  { unfold draw in Hin. rewrite Hplay in Hin.
    repeat (apply in_app_or in Hin; destruct Hin as [Hin | Hin]).
    - destruct Hin as [Hin | []]. discriminate.
    - destruct Hin as [Hin | []]. discriminate.
    - apply in_map_iff in Hin. destruct Hin as [c [Heq Hc0]].
      exists c. split; [| exact Heq].
      apply (proj1 (Forall_forall _ _) Hsnake c Hc0).
    - destruct Hin as [Hin | [Hin | []]]; [discriminate |].
      exists (food s'). split; [exact Hfood | exact Hin].
    - destruct Hin. }
  destruct Hcell as [c [[Hx1 [Hx2 [Hy1 Hy2]]] Heq]].
  unfold cellRect in Heq. injection Heq as <- <- <- <-.
  destruct Hp as [_ [_ Hg]].
  destruct Hwhole as [W [H [G [_ [_ [HG _]]]]]].
  destruct (cell_on_canvas (gridSize p) (width p) (x c) Hg Hx1 Hx2)
    as [Ha [Hb Hfit]].
  destruct (cell_on_canvas (gridSize p) (height p) (y c) Hg Hy1 Hy2)
    as [Ha' [Hb' Hfit']].
  split; [reflexivity |]. split; [reflexivity |].
  split; [exact Ha |]. split; [exact Hb |].
  split; [exact Ha' |]. split; [exact Hb' |].
  split; [exact Hfit |]. split; [exact Hfit' |].
  exists (x c * G), (y c * G).
  rewrite HG, !inject_Z_mult. split; reflexivity.
Qed.

Lemma draw_squares_on_canvas_witness :
  In (cellRect defaultProps (mkCoordinate 13 9)) (draw defaultProps sampleState) /\
  (0 <= inject_Z 13 * 20)%Q /\ (inject_Z 13 * 20 < 400)%Q /\
  (0 <= inject_Z 9 * 20)%Q /\ (inject_Z 9 * 20 < 400)%Q /\
  (inject_Z 13 * 20 + 20 <= 400)%Q /\ (inject_Z 9 * 20 + 20 <= 400)%Q /\
  (exists n m, (inject_Z 13 * 20 == inject_Z n)%Q /\ (inject_Z 9 * 20 == inject_Z m)%Q).
Proof.
  assert (Hin : In (cellRect defaultProps (mkCoordinate 13 9))
                   (draw defaultProps sampleState))
    by (right; right; left; reflexivity).
  split; [exact Hin |].
  destruct (draw_squares_on_canvas defaultProps sampleEvents sampleDraws sampleState [])
    with (left := (inject_Z 13 * gridSize defaultProps)%Q)
         (top := (inject_Z 9 * gridSize defaultProps)%Q)
         (w := gridSize defaultProps) (h := gridSize defaultProps)
    as [_ [_ [Hl0 [Hl1 [Ht0 [Ht1 [Hfitw [Hfith Hpix]]]]]]]].
  - repeat split.
  - exists 400, 400, 20. repeat split; reflexivity.
  - reflexivity.
  - reflexivity.
  - repeat constructor; discriminate.
  - exact sample_run.
  - reflexivity.
  - exact Hin.
  - split; [exact Hl0 |]. split; [exact Hl1 |].
    split; [exact Ht0 |]. split; [exact Ht1 |].
    split; [apply (Hfitw 20); reflexivity |].
    split; [apply (Hfith 20); reflexivity |].
    exact Hpix.
Defined.

(** ** The debugging grid *)

Lemma gridLoop_diverges (limit step : Q) :
  (step <= 0)%Q ->
  forall fuel v, (v < limit)%Q -> gridLoop fuel v limit step = None.
Proof.
  intros Hstep. induction fuel as [| fuel IH]; intros v Hv; cbn [gridLoop];
    [reflexivity |].
  destruct (Qle_bool limit v) eqn:E.
  - apply Qle_bool_iff in E. exfalso. apply (Qlt_not_le _ _ Hv E).
  - rewrite IH; [reflexivity | lra].
Qed.

Lemma gridLoop_values (limit step : Q) :
  forall fuel v vs,
    gridLoop fuel v limit step = Some vs ->
    Forall (fun u => (v <= u)%Q /\ (u < limit)%Q) vs.
Proof.
  induction fuel as [| fuel IH]; intros v vs H; cbn [gridLoop] in H;
    [discriminate |].
  destruct (Qle_bool limit v) eqn:E.
  - injection H as <-. constructor.
  - assert (Hv : (v < limit)%Q).
    { apply Qnot_le_lt. intros Hle. apply Qle_bool_iff in Hle. congruence. }
    destruct (gridLoop fuel (v + step) limit step) as [vs' |] eqn:Hrec;
      [| discriminate].
    injection H as <-.
    destruct (Qlt_le_dec step 0) as [Hneg | Hpos].
    + rewrite (gridLoop_diverges limit step (Qlt_le_weak _ _ Hneg) fuel (v + step))
        in Hrec by lra.
      discriminate.
    + constructor; [split; [lra | exact Hv] |].
      apply (Forall_impl _ (P := fun u => (v + step <= u)%Q /\ (u < limit)%Q));
        [| apply (IH _ _ Hrec)].
      intros u [Hu1 Hu2]. split; [lra | exact Hu2].
Qed.

Lemma gridLoop_returns (limit step : Q) :
  (0 < step)%Q ->
  forall n v fuel,
    (limit - v <= inject_Z (Z.of_nat n) * step)%Q ->
    (n < fuel)%nat ->
    exists vs, gridLoop fuel v limit step = Some vs.
Proof.
  intros Hstep. induction n as [| n IH]; intros v fuel Hcover Hfuel;
    (destruct fuel as [| fuel]; [lia |]); cbn [gridLoop];
    destruct (Qle_bool limit v) eqn:E; eauto.
  - exfalso. assert (Hle : (limit <= v)%Q).
    { change (inject_Z (Z.of_nat 0)) with 0%Q in Hcover. lra. }
    apply Qle_bool_iff in Hle. congruence.
  - destruct (IH (v + step)%Q fuel) as [vs Hvs]; [| lia | rewrite Hvs; eauto].
    assert (Hs : (inject_Z (Z.of_nat (S n)) * step
                  == inject_Z (Z.of_nat n) * step + step)%Q).
    { rewrite Nat2Z.inj_succ. unfold Z.succ. rewrite inject_Z_plus. ring. }
    rewrite Hs in Hcover. lra.
Qed.

Lemma steps_cover (limit step : Q) :
  (0 < step)%Q ->
  exists n, (limit <= inject_Z (Z.of_nat n) * step)%Q.
Proof.
  intros Hstep. exists (Z.to_nat (Qceiling (limit / step))).
  assert (Hnz : ~ (step == 0)%Q) by (intros E; rewrite E in Hstep; discriminate).
  assert (Hback : (limit / step * step == limit)%Q)
    by (rewrite Qmult_comm; apply Qmult_div_r; exact Hnz).
  rewrite <- Hback at 1.
  apply Qmult_le_compat_r; [| apply Qlt_le_weak; exact Hstep].
  apply Qle_trans with (inject_Z (Qceiling (limit / step))); [apply Qle_ceiling |].
  rewrite <- Zle_Qle. lia.
Qed.

(** X12: [drawGrid] returns, given enough steps, whenever [gridSize] is
    positive; with [gridSize] zero or negative and a canvas of positive width
    or height it never returns.  Every line it draws starts at the top edge at
    an abscissa in [0, width), or at the left edge at an ordinate in
    [0, height). *)
Theorem drawGrid_returns_iff_positive_step (p : SnakeGameProps) :
  ((0 < gridSize p)%Q ->
   exists fuel, forall fuel', (fuel <= fuel')%nat ->
     exists ops, drawGrid p fuel' = Some ops) /\
  ((gridSize p <= 0)%Q -> (0 < width p)%Q \/ (0 < height p)%Q ->
   forall fuel, drawGrid p fuel = None) /\
  (forall fuel ops left top,
     drawGrid p fuel = Some ops ->
     In (MoveTo left top) ops ->
     (top = 0%Q /\ (0 <= left)%Q /\ (left < width p)%Q) \/
     (left = 0%Q /\ (0 <= top)%Q /\ (top < height p)%Q)).
Proof.
  split; [| split].
  - intros Hg.
    destruct (steps_cover (width p) (gridSize p) Hg) as [nw Hnw].
    destruct (steps_cover (height p) (gridSize p) Hg) as [nh Hnh].
    exists (S (Nat.max nw nh)). intros fuel' Hfuel. unfold drawGrid.
    destruct (gridLoop_returns (width p) (gridSize p) Hg nw 0 fuel') as [xs ->];
      [lra | lia |].
    destruct (gridLoop_returns (height p) (gridSize p) Hg nh 0 fuel') as [ys ->];
      [lra | lia |].
    eauto.
  - intros Hg Hsize fuel. unfold drawGrid. destruct Hsize as [Hw | Hh].
    + rewrite (gridLoop_diverges (width p) (gridSize p) Hg fuel 0 Hw). reflexivity.
    + rewrite (gridLoop_diverges (height p) (gridSize p) Hg fuel 0 Hh).
      destruct (gridLoop fuel 0 (width p) (gridSize p)); reflexivity.
  - intros fuel ops left top Hdraw Hin. unfold drawGrid in Hdraw.
    destruct (gridLoop fuel 0 (width p) (gridSize p)) as [xs |] eqn:Hxs;
      [| discriminate].
    destruct (gridLoop fuel 0 (height p) (gridSize p)) as [ys |] eqn:Hys;
      [| discriminate].
    injection Hdraw as <-.
    apply gridLoop_values in Hxs. apply gridLoop_values in Hys.
    destruct Hin as [Hin | Hin]; [discriminate |].
    apply in_app_or in Hin. destruct Hin as [Hin | Hin];
      apply in_flat_map in Hin; destruct Hin as [v [Hv Hop]];
      cbn in Hop;
      destruct Hop as [Hop | [Hop | [Hop | [Hop | []]]]]; try discriminate;
      injection Hop as <- <-.
    + left. split; [reflexivity |].
      apply (proj1 (Forall_forall _ _) Hxs v Hv).
    + right. split; [reflexivity |].
      apply (proj1 (Forall_forall _ _) Hys v Hv).
Qed.

Lemma drawGrid_returns_iff_positive_step_witness :
  (exists fuel ops, drawGrid defaultProps fuel = Some ops) /\
  drawGrid {| width := 400; height := 400; gridSize := 0 |} 1000 = None.
Proof.
  destruct (drawGrid_returns_iff_positive_step defaultProps) as [Hret _].
  destruct (drawGrid_returns_iff_positive_step
              {| width := 400; height := 400; gridSize := 0 |}) as [_ [Hloop _]].
  split.
  - destruct Hret as [fuel Hfuel]; [reflexivity |].
    destruct (Hfuel fuel (Nat.le_refl fuel)) as [ops Hops].
    exists fuel, ops. exact Hops.
  - apply Hloop; [discriminate | left; reflexivity].
Defined.

(** ** What the committed snake shows *)

Lemma tick_keeps_collision_shown (p : SnakeGameProps) (rs : list Q)
  (s s' : GameState) (rs' : list Q) :
  (gameOver s = true ->
   exists head rest, snake s = head :: rest /\ (offGrid p head \/ In head rest)) ->
  tick p rs s = Some (s', rs') ->
  gameOver s' = true ->
  exists head rest, snake s' = head :: rest /\ (offGrid p head \/ In head rest).
Proof.
  intros Hshown Htick.
  destruct (tick_cases p rs s s' rs' Htick)
    as [[-> _] | [head [rest [_ [_ [[_ [_ ->]] | [_ [newFood [_ ->]]]]]]]]];
    [exact Hshown | |]; cbn [snake gameOver]; intros Hhit;
    apply checkCollision_spec in Hhit; cbn [tl] in Hhit; eauto.
Qed.

(** X14: on a grid with more than 8 columns and more than 10 rows, in
    every reached state the snake has a head, and [gameOver] is true exactly
    when that head is outside the grid or on another segment of the snake:
    the committed snake shows the collision that ended the game, and shows
    none while the game is played. *)
Theorem game_over_shows_collision (p : SnakeGameProps) (es : list Event)
  (rs : list Q) (s' : GameState) (rs' : list Q) :
  (8 < columns p)%Q ->
  (10 < rows p)%Q ->
  run p es rs initialState = Some (s', rs') ->
  exists head rest,
    snake s' = head :: rest /\
    (gameOver s' = true <-> offGrid p head \/ In head rest).
Proof.
  intros Hc Hr Hrun.
  assert (Hover : gameOver s' = true ->
                  exists head rest, snake s' = head :: rest /\
                                    (offGrid p head \/ In head rest)).
  { apply (run_invariant p
             (fun s => gameOver s = true ->
                       exists head rest, snake s = head :: rest /\
                                         (offGrid p head \/ In head rest)))
      with (es := es) (rs := rs) (s := initialState) (rs' := rs');
      [ intros H; discriminate | | intros s d H; exact H
      | intros H; discriminate | exact Hrun ].
    intros rs0 s0 s1 rs1. apply tick_keeps_collision_shown. }
  assert (Hgrid : gameOver s' = false -> Forall (inGrid p) (snake s')).
  { apply (run_invariant p (fun s => gameOver s = false -> Forall (inGrid p) (snake s)))
      with (es := es) (rs := rs) (s := initialState) (rs' := rs');
      [ intros _; apply start_snake_inGrid; assumption
      | | intros s d H; exact H
      | intros _; apply start_snake_inGrid; assumption
      | exact Hrun ].
    intros rs0 s0 s1 rs1. apply tick_keeps_inGrid. }
  assert (Hstart : gameOver initialState = false -> NoDup (snake initialState)).
  { intros _. cbn. repeat constructor; cbn; intros H;
      repeat (destruct H as [H | H]; [discriminate |]); exact H. }
  assert (Hnd : gameOver s' = false -> NoDup (snake s')).
  { apply (run_invariant p (fun s => gameOver s = false -> NoDup (snake s)))
      with (es := es) (rs := rs) (s := initialState) (rs' := rs');
      [exact Hstart | | intros s d H; exact H | exact Hstart | exact Hrun].
    intros rs0 s0 s1 rs1. apply tick_keeps_NoDup. }
  assert (Hlen : (3 <= List.length (snake s'))%nat).
  { apply (run_invariant p (fun s => (3 <= List.length (snake s))%nat))
      with (es := es) (rs := rs) (s := initialState) (rs' := rs');
      [cbn; lia | | intros s d H; exact H | cbn; lia | exact Hrun].
    intros rs0 s0 s1 rs1. apply tick_keeps_three_segments. }
  destruct (snake s') as [| head rest] eqn:Hshape; [cbn in Hlen; lia |].
  exists head, rest. split; [reflexivity |]. split.
  - intros H. destruct (Hover H) as [h [r [Heq Hhit]]].
    injection Heq as <- <-. exact Hhit.
  - intros Hhit. destruct (gameOver s') eqn:E; [reflexivity | exfalso].
    specialize (Hgrid eq_refl). specialize (Hnd eq_refl).
    inversion Hgrid as [| ? ? Hhead _]; subst.
    inversion Hnd as [| ? ? Hnotin _]; subst.
    destruct Hhit as [Hoff | Hin]; [| contradiction].
    apply offGrid_not_inGrid in Hoff. contradiction.
Qed.

Lemma game_over_shows_collision_witness :
  exists head rest,
    snake sampleState = head :: rest /\
    (gameOver sampleState = true <-> offGrid defaultProps head \/ In head rest).
Proof.
  apply (game_over_shows_collision defaultProps sampleEvents sampleDraws
           sampleState []);
    [reflexivity | reflexivity | exact sample_run].
Defined.

(** ** Runs without a restart *)

(** X13: along a run of ticks and key presses without "Enter", the score
    never drops and the snake never loses a segment. *)
Theorem no_restart_no_loss (p : SnakeGameProps) (es : list Event) :
  ~ In (KeyDown "Enter") es ->
  forall rs s s' rs',
    run p es rs s = Some (s', rs') ->
    score s <= score s' /\
    (List.length (snake s) <= List.length (snake s'))%nat.
Proof.
  induction es as [| e es IH]; intros Hno rs s s' rs' Hrun; cbn [run] in Hrun.
  - injection Hrun as <- <-. split; lia.
  - destruct (commit (dispatch p e s) rs s) as [[s1 rs1] |] eqn:Hstep; [| discriminate].
    assert (Hrest : ~ In (KeyDown "Enter") es)
      by (intros Hin; apply Hno; right; exact Hin).
    destruct (IH Hrest rs1 s1 s' rs' Hrun) as [Hscore Hlen].
    assert (Hone : score s <= score s1 /\
                   (List.length (snake s) <= List.length (snake s1))%nat).
    { destruct e as [| key]; cbn [dispatch] in Hstep.
      - destruct (tick_cases p rs s s1 rs1 Hstep)
          as [[-> _] | [head [rest [_ [Hshape [[_ [_ ->]] | [_ [newFood [_ ->]]]]]]]]];
          cbn [snake score List.length]; [split; lia | |].
        + rewrite Hshape. rewrite removelast_length. cbn [List.length]. split; lia.
        + split; lia.
      - destruct (handleKeyDown_cases key rs s) as [s2 [Hs2 Hcase]].
        rewrite Hs2 in Hstep. injection Hstep as <- <-.
        destruct Hcase as [-> | [[_ [d ->]] | [_ [-> _]]]]; cbn [snake score].
        + split; lia.
        + split; lia.
        + exfalso. apply Hno. left. reflexivity. }
    split; lia.
Qed.

Lemma no_restart_no_loss_witness :
  score initialState <= score sampleState /\
  (List.length (snake initialState) <= List.length (snake sampleState))%nat.
Proof.
  apply (no_restart_no_loss defaultProps sampleEvents) with (rs := sampleDraws) (rs' := []).
  - cbn. intros H. repeat (destruct H as [H | H]; [discriminate |]). exact H.
  - exact sample_run.
Defined.
